(** * watchdog: the inotify observer

    A shallow embedding of [src/watchdog/observers/inotify_observer.py]:
    the event dispatcher [_ProcessEventDispatcher], which turns pyinotify
    notifications into watchdog events, and the observer [InotifyObserver],
    which keeps the rules, their notifiers and the kernel watches.

    Python objects that are shared and mutated (the watch manager, the
    notifier threads, the two containers of the observer) live in an
    explicit observer state; a method is a computation on that state which
    either returns or raises, keeping the state it had reached. *)

From Stdlib Require Import ZArith String Ascii Lia.
From stdpp Require Import base option list gmap sets strings fin_maps.

Local Open Scope Z_scope.

(* ===================================================================== *)
(** * Events                                                              *)
(* ===================================================================== *)

(** ** watchdog.events: the event classes the dispatcher instantiates. *)
Inductive FileSystemEvent : Type :=
| DirMovedEvent (src_path dest_path : string)
| DirDeletedEvent (src_path : string)
| DirCreatedEvent (src_path : string)
| DirModifiedEvent (src_path : string)
| FileMovedEvent (src_path dest_path : string)
| FileDeletedEvent (src_path : string)
| FileCreatedEvent (src_path : string)
| FileModifiedEvent (src_path : string).

Definition is_moved_event (e : FileSystemEvent) : bool :=
  match e with
  | DirMovedEvent _ _ | FileMovedEvent _ _ => true
  | _ => false
  end.

Definition is_deleted_event (e : FileSystemEvent) : bool :=
  match e with
  | DirDeletedEvent _ | FileDeletedEvent _ => true
  | _ => false
  end.

(** ** pyinotify's notification record.  [maskname] selects the method
    [process_<maskname>]; [src_pathname] is an attribute that pyinotify
    sets on an IN_MOVED_TO record only when it has seen the IN_MOVED_FROM
    half with the same cookie, so it is optional. *)
Inductive MaskName : Type :=
| IN_CREATE | IN_DELETE | IN_CLOSE_WRITE | IN_ATTRIB
| IN_MOVED_FROM | IN_MOVED_TO.

Record Event : Type := mkEvent {
  maskname : MaskName;
  pathname : string;
  src_pathname : option string;
  dir : bool;
  cookie : option Z
}.

(** ** Exceptions raised in this module. *)
Inductive Exception : Type :=
| ValueError (msg : string)
| TypeError (msg : string)
| KeyError (key : string)
| AttributeError (attr : string)
| UnboundLocalError (var : string)
| OSError (path : string)
| RuntimeError (msg : string).

(** An entry of a directory tree: a path and whether it is a directory. *)
Record Entry : Type := mkEntry {
  entry_path : string;
  entry_is_dir : bool
}.

(** ** Collaborators that are not part of this module.

    [absolute_path] and [real_absolute_path] are watchdog.utils' path
    normalizers; the second one resolves symbolic links and may fail
    ([None]).  [subdirs p] lists the directories below [p], which
    pyinotify's [add_watch] walks when [rec] is set.  [path_index] is the
    record of paths known before a move, which the move synthesizer
    consults.  [watchable p] tells whether the kernel takes a watch on
    [p]: it refuses one on a path that is not there or may not be
    read. *)
Record Collaborators : Type := mkCollaborators {
  absolute_path : string → string;
  real_absolute_path : string → option string;
  subdirs : string → list string;
  path_index : list Entry;
  watchable : string → bool
}.

(* ===================================================================== *)
(** * The recursive move synthesizer                                      *)
(* ===================================================================== *)

(** [p] lies strictly below the directory [d]: it starts with [d/] and
    goes on after it. *)
Definition is_descendant (d p : string) : bool :=
  String.prefix (d +:+ "/") p
  && (String.length (d +:+ "/") <? String.length p)%nat.

(** Substitute the prefix [old] of [p] with [new]. *)
Definition rewrite_prefix (old new p : string) : string :=
  if String.prefix old p
  then new +:+ String.substring (String.length old)
                                (String.length p - String.length old) p
  else p.

Definition descendants_of (index : list Entry) (d : string) : list Entry :=
  List.filter (λ e, is_descendant d (entry_path e)) index.

Definition moved_event_for (old new : string) (e : Entry) : FileSystemEvent :=
  if entry_is_dir e
  then DirMovedEvent (entry_path e) (rewrite_prefix old new (entry_path e))
  else FileMovedEvent (entry_path e) (rewrite_prefix old new (entry_path e)).

(** Modelled from the spec: [watchdog.events.get_moved_events_for], which
    the dispatcher imports and which is not in this module.  The spec
    (Recursive Move Synthesizer) has it produce one Moved event for every
    entry that was present under the old directory path immediately before
    the move, the entry's path rewritten by substituting the old directory
    prefix with the new one; the entries come from a record of the subtree
    as it was before the move, here [index].  The dispatcher's only call
    passes [recursive=True]. *)
Definition get_moved_events_for (index : list Entry)
    (src_dir_path dest_dir_path : string) : list FileSystemEvent :=
  List.map (moved_event_for src_dir_path dest_dir_path)
           (descendants_of index src_dir_path).

(* ===================================================================== *)
(** * _ProcessEventDispatcher                                             *)
(* ===================================================================== *)

Definition Handler : Type := string.

(** [my_init]: the two keyword arguments the dispatcher keeps. *)
Record _ProcessEventDispatcher : Type := mkDispatcher {
  event_handler : Handler;
  is_recursive : bool
}.

(** What a method of the dispatcher does: it raises, or it returns after
    having passed the listed events, in this order, to
    [self.event_handler.dispatch].  The handler is the caller's object,
    of which the dispatcher uses this one method; the list is the calls
    the dispatcher makes as long as the handler returns from each. *)
Definition Dispatched : Type := Exception + list FileSystemEvent.

Section Dispatcher.
Variable env : Collaborators.
Variable self : _ProcessEventDispatcher.

Definition process_IN_CREATE (event : Event) : Dispatched :=
  let src_path := absolute_path env (pathname event) in
  if dir event
  then inr [DirCreatedEvent src_path]
  else inr [FileCreatedEvent src_path].

Definition process_IN_DELETE (event : Event) : Dispatched :=
  let src_path := absolute_path env (pathname event) in
  if dir event
  then inr [DirDeletedEvent src_path]
  else inr [FileDeletedEvent src_path].

Definition process_IN_CLOSE_WRITE (event : Event) : Dispatched :=
  let src_path := absolute_path env (pathname event) in
  if dir event
  then inr [DirModifiedEvent src_path]
  else inr [FileModifiedEvent src_path].

Definition process_IN_ATTRIB (event : Event) : Dispatched :=
  process_IN_CLOSE_WRITE event.

Definition process_IN_MOVED_TO (event : Event) : Dispatched :=
  match src_pathname event with
  | None => inl (AttributeError "src_pathname")
  | Some src_pathname =>
      let src_path := absolute_path env src_pathname in
      let dest_path := absolute_path env (pathname event) in
      if dir event
      then
        let synthesized :=
          if is_recursive self
          then get_moved_events_for (path_index env) src_path dest_path
          else [] in
        inr (synthesized ++ [DirMovedEvent src_path dest_path])
      else inr [FileMovedEvent src_path dest_path]
  end.

(** [pyinotify.ProcessEvent.process_default], which the dispatcher
    inherits and does not override: it does nothing. *)
Definition process_default (event : Event) : Dispatched := inr [].

(** [pyinotify.ProcessEvent.__call__]: the method named after the
    notification's mask when the class has one, else [process_default].
    The dispatcher has no [process_IN_MOVED_FROM]. *)
Definition process_event (event : Event) : Dispatched :=
  match maskname event with
  | IN_CREATE => process_IN_CREATE event
  | IN_DELETE => process_IN_DELETE event
  | IN_CLOSE_WRITE => process_IN_CLOSE_WRITE event
  | IN_ATTRIB => process_IN_ATTRIB event
  | IN_MOVED_TO => process_IN_MOVED_TO event
  | IN_MOVED_FROM => process_default event
  end.
End Dispatcher.

(* ===================================================================== *)
(** * Python values                                                       *)
(* ===================================================================== *)

#[local] Set Warnings "-register-all".

(** The values a caller may pass as the [paths] argument of [schedule]:
    None, a string, an integer, a list, or an object of any other class
    (a tuple, a set, a generator, ...), of which the code uses the class
    name, the truth value and, when it can be iterated over, the items
    the iteration yields. *)
Inductive PyValue : Type :=
| PyNone
| PyStr (s : string)
| PyInt (n : Z)
| PyList (items : list PyValue)
| PyObject (cls : string) (truth : bool) (iter : option (list PyValue)).

(** Python's truth value: [not paths] is the negation of this. *)
Definition truthy (v : PyValue) : bool :=
  match v with
  | PyNone => false
  | PyStr s => negb (String.eqb s "")
  | PyInt n => negb (n =? 0)
  | PyList items => negb (Nat.eqb (List.length items) 0)
  | PyObject _ truth _ => truth
  end.

(** [isinstance(v, basestring)]. *)
Definition is_basestring (v : PyValue) : bool :=
  match v with
  | PyStr _ => true
  | _ => false
  end.

(** [type(v).__name__]. *)
Definition type_name (v : PyValue) : string :=
  match v with
  | PyNone => "NoneType"
  | PyStr _ => "str"
  | PyInt _ => "int"
  | PyList _ => "list"
  | PyObject cls _ _ => cls
  end.

(* ===================================================================== *)
(** * pyinotify's watch manager and notifier threads                      *)
(* ===================================================================== *)

(** The watches the kernel holds for the manager, by watch descriptor,
    the descriptor the kernel hands out next, and whether the inotify
    instance the manager has opened is still open: once it is closed the
    kernel holds no watch and takes none. *)
Record WatchManager : Type := mkWatchManager {
  wmd : gmap Z string;
  next_wd : Z;
  fd_open : bool
}.

Definition new_WatchManager : WatchManager :=
  {| wmd := ∅; next_wd := 1; fd_open := true |}.

(** Closing the inotify instance: the kernel drops every watch. *)
Definition close_fd (wm : WatchManager) : WatchManager :=
  {| wmd := ∅; next_wd := next_wd wm; fd_open := false |}.

(** The descriptor under which [path] is watched already, if any: the
    kernel answers a second watch on one path with the same descriptor. *)
Definition wd_of_path (m : gmap Z string) (path : string) : option Z :=
  fst <$> List.find (λ kv, String.eqb (snd kv) path) (map_to_list m).

(** One watch, asked for in quiet mode: when the kernel refuses it (the
    instance is closed, or the path cannot be watched) there is no
    exception, no watch, and the descriptor returned is negative. *)
Definition add_one_watch (env : Collaborators) (wm : WatchManager)
    (path : string) : WatchManager * Z :=
  if negb (fd_open wm && watchable env path)
  then (wm, -1)
  else
    match wd_of_path (wmd wm) path with
    | Some wd => (wm, wd)
    | None => ({| wmd := <[next_wd wm := path]> (wmd wm);
                  next_wd := next_wd wm + 1;
                  fd_open := fd_open wm |},
               next_wd wm)
    end.

Fixpoint add_watches (env : Collaborators) (wm : WatchManager)
    (paths : list string) (acc : gmap string Z)
    : WatchManager * gmap string Z :=
  match paths with
  | [] => (wm, acc)
  | p :: rest =>
      let '(wm', wd) := add_one_watch env wm p in
      add_watches env wm' rest (<[p := wd]> acc)
  end.

(** [WatchManager.add_watch(path, ALL_EVENTS, rec=rec, auto_add=True)],
    quiet as it is by default: asks for a watch on [path] and, when
    [rec] is set, on the directories below it; returns the dict from
    each of these paths to its descriptor, negative where the kernel
    refused. *)
Definition add_watch (env : Collaborators) (wm : WatchManager)
    (path : string) (rec : bool) : WatchManager * gmap string Z :=
  add_watches env wm (path :: (if rec then subdirs env path else [])) ∅.

(** [WatchManager.rm_watch(wds)] (quiet): the listed watches are gone. *)
Definition rm_watch (wm : WatchManager) (wds : list Z) : WatchManager :=
  {| wmd := foldr delete (wmd wm) wds;
     next_wd := next_wd wm;
     fd_open := fd_open wm |}.

(** [d.values()] of a descriptor dict. *)
Definition values (d : gmap string Z) : list Z := (map_to_list d).*2.

Inductive NotifierStatus : Type := Initial | Running | Stopped.

(** A [ThreadedNotifier] object: the dispatcher it feeds and where its
    thread stands. *)
Record ThreadedNotifier : Type := mkNotifier {
  notifier_dispatcher : _ProcessEventDispatcher;
  notifier_status : NotifierStatus
}.

Definition with_status (s : NotifierStatus) (n : ThreadedNotifier)
    : ThreadedNotifier :=
  {| notifier_dispatcher := notifier_dispatcher n; notifier_status := s |}.

(* ===================================================================== *)
(** * InotifyObserver                                                     *)
(* ===================================================================== *)

(** [_Rule]: the notifier is held by reference (its address among the
    notifier objects), the descriptors are the dict [add_watch] returned. *)
Record _Rule : Type := mkRule {
  rule_name : string;
  rule_notifier : nat;
  rule_descriptors : gmap string Z
}.

(** The observer's fields, and the notifier objects it has created:
    [notifier_objects !! a] is the object at address [a]. *)
Record InotifyObserver : Type := mkObserver {
  _wm : WatchManager;
  _notifiers : gset nat;
  _name_to_rule : gmap string _Rule;
  notifier_objects : list ThreadedNotifier
}.

(** [InotifyObserver.__init__]. *)
Definition new_InotifyObserver : InotifyObserver :=
  {| _wm := new_WatchManager;
     _notifiers := ∅;
     _name_to_rule := ∅;
     notifier_objects := [] |}.

(** ** Methods as computations on the observer: the outcome is an
    exception or a result, together with the state reached. *)
Definition M (A : Type) : Type :=
  InotifyObserver → (Exception + A) * InotifyObserver.

Definition ret {A} (a : A) : M A := λ st, (inr a, st).
Definition raise {A} (e : Exception) : M A := λ st, (inl e, st).
Definition bind {A B} (m : M A) (k : A → M B) : M B :=
  λ st, match m st with
        | (inl e, st') => (inl e, st')
        | (inr a, st') => k a st'
        end.
Definition get_state : M InotifyObserver := λ st, (inr st, st).
Definition put_state (st : InotifyObserver) : M unit := λ _, (inr tt, st).

Declare Scope observer_scope.
Delimit Scope observer_scope with obs.
Notation "'do' x <- m ; k" := (bind m (λ x, k))
  (at level 10, x name, m at level 100, k at level 200) : observer_scope.
Notation "'do_' m ; k" := (bind m (λ _, k))
  (at level 10, m at level 100, k at level 200) : observer_scope.
Local Open Scope observer_scope.

(** [for x in xs: body(x)]. *)
Fixpoint for_each {A} (xs : list A) (body : A → M unit) : M unit :=
  match xs with
  | [] => ret tt
  | x :: rest => do_ body x; for_each rest body
  end.

(** [ThreadedNotifier(self._wm, dispatcher)]: a new object, at the next
    free address. *)
Definition new_ThreadedNotifier (dispatcher : _ProcessEventDispatcher)
    : M nat :=
  λ st, (inr (List.length (notifier_objects st)),
         {| _wm := _wm st;
            _notifiers := _notifiers st;
            _name_to_rule := _name_to_rule st;
            notifier_objects :=
              notifier_objects st ++ [mkNotifier dispatcher Initial] |}).

Definition set_notifier_status (s : NotifierStatus) (a : nat) : M unit :=
  λ st, (inr tt,
         {| _wm := _wm st;
            _notifiers := _notifiers st;
            _name_to_rule := _name_to_rule st;
            notifier_objects :=
              alter (with_status s) a (notifier_objects st) |}).

(** [notifier.start()]. *)
Definition notifier_start : nat → M unit := set_notifier_status Running.

(** [notifier.stop()], pyinotify's [ThreadedNotifier.stop]: it tells the
    thread to end and joins it, then closes the inotify instance of the
    watch manager, which all notifiers of the observer share, then its
    own pipe.  Joining a thread that was never started raises; writing
    to the pipe of a notifier that was stopped before raises; and
    closing an instance that is closed already raises, once the thread
    has ended.  (An address that holds no object does not occur: only
    [schedule] fills the notifier set.) *)
Definition notifier_stop (a : nat) : M unit :=
  λ st,
    let stopped (wm : WatchManager) :=
      {| _wm := wm;
         _notifiers := _notifiers st;
         _name_to_rule := _name_to_rule st;
         notifier_objects :=
           alter (with_status Stopped) a (notifier_objects st) |} in
    match notifier_status <$> notifier_objects st !! a with
    | None => (inr tt, st)
    | Some Initial =>
        (inl (RuntimeError "cannot join thread before it is started"), st)
    | Some Stopped =>
        (inl (OSError "[Errno 9] Bad file descriptor"), st)
    | Some Running =>
        if fd_open (_wm st)
        then (inr tt, stopped (close_fd (_wm st)))
        else (inl (OSError "[Errno 9] Bad file descriptor"),
              stopped (_wm st))
    end.

(** [self._notifiers.add(notifier)]. *)
Definition notifiers_add (a : nat) : M unit :=
  λ st, (inr tt,
         {| _wm := _wm st;
            _notifiers := {[a]} ∪ _notifiers st;
            _name_to_rule := _name_to_rule st;
            notifier_objects := notifier_objects st |}).

(** [self._name_to_rule[name] = rule]. *)
Definition name_to_rule_set (name : string) (rule : _Rule) : M unit :=
  λ st, (inr tt,
         {| _wm := _wm st;
            _notifiers := _notifiers st;
            _name_to_rule := <[name := rule]> (_name_to_rule st);
            notifier_objects := notifier_objects st |}).

(** [self._name_to_rule[name]]. *)
Definition name_to_rule_get (name : string) : M _Rule :=
  λ st, match _name_to_rule st !! name with
        | Some rule => (inr rule, st)
        | None => (inl (KeyError name), st)
        end.

(** [self._wm.add_watch(path, ALL_EVENTS, rec=recursive, auto_add=True)]. *)
Definition wm_add_watch (env : Collaborators) (path : string) (rec : bool)
    : M (gmap string Z) :=
  λ st, let '(wm', d) := add_watch env (_wm st) path rec in
        (inr d,
         {| _wm := wm';
            _notifiers := _notifiers st;
            _name_to_rule := _name_to_rule st;
            notifier_objects := notifier_objects st |}).

(** [self._wm.rm_watch(wds)]. *)
Definition wm_rm_watch (wds : list Z) : M unit :=
  λ st, (inr tt,
         {| _wm := rm_watch (_wm st) wds;
            _notifiers := _notifiers st;
            _name_to_rule := _name_to_rule st;
            notifier_objects := notifier_objects st |}).

Section Observer.
Variable env : Collaborators.

(** [for notifier in self._notifiers: notifier.stop()], the notifiers
    taken in the given order. *)
Definition stop_notifiers (order : list nat) : M unit :=
  for_each order notifier_stop.

(** [on_stopping].  Python leaves open in which order a set is gone
    through; this is one order, and [stop_notifiers] takes any. *)
Definition on_stopping : M unit :=
  do st <- get_state;
  stop_notifiers (elements (_notifiers st)).

(** The loop of [schedule] over the paths.  [descriptors] is the local
    variable the loop assigns: unbound ([None]) before the first turn,
    and assigned anew at every turn. *)
Fixpoint watch_paths (paths : list PyValue) (recursive : bool)
    (descriptors : option (gmap string Z)) : M (option (gmap string Z)) :=
  match paths with
  | [] => ret descriptors
  | path :: rest =>
      match path with
      | PyStr s =>
          match real_absolute_path env s with
          | None => raise (OSError s)
          | Some path =>
              do descriptors <- wm_add_watch env path recursive;
              watch_paths rest recursive (Some descriptors)
          end
      | _ => raise (TypeError ("Path must be string, not '"
                               +:+ type_name path +:+ "'."))
      end
  end.

(** What [for path in paths] iterates over. *)
Definition iterate (paths : PyValue) : M (list PyValue) :=
  match paths with
  | PyList items | PyObject _ _ (Some items) => ret items
  | PyStr s =>
      ret (List.map (λ c, PyStr (String c EmptyString))
                    (list_ascii_of_string s))
  | _ => raise (TypeError ("'" +:+ type_name paths
                           +:+ "' object is not iterable"))
  end.

(** [schedule]. *)
Definition schedule (name : string) (event_handler : Handler)
    (paths : PyValue) (recursive : bool) : M unit :=
  if negb (truthy paths)
  then raise (ValueError "Please specify a few paths.")
  else
    let paths := if is_basestring paths then PyList [paths] else paths in
    let dispatcher := mkDispatcher event_handler recursive in
    do notifier <- new_ThreadedNotifier dispatcher;
    do_ notifiers_add notifier;
    do items <- iterate paths;
    do descriptors <- watch_paths items recursive None;
    match descriptors with
    | None => raise (UnboundLocalError "descriptors")
    | Some descriptors =>
        do_ name_to_rule_set name (mkRule name notifier descriptors);
        notifier_start notifier
    end.

End Observer.

(** One turn of the loop of [unschedule] over the given names. *)
Definition unschedule_name (name : string) : M unit :=
  do rule <- name_to_rule_get name;
  wm_rm_watch (values (rule_descriptors rule)).

(** [unschedule]. *)
Definition unschedule (names : list string) : M unit :=
  match names with
  | [] =>
      do st <- get_state;
      for_each (map_to_list (_name_to_rule st))
               (λ item, wm_rm_watch (values (rule_descriptors (snd item))))
  | _ => for_each names unschedule_name
  end.

(** The states the observer can be in: what [__init__] builds, and what
    any call of a method leaves, whether it returned or raised;
    [on_stopping] may go through the notifier set in any order. *)
Inductive reachable (env : Collaborators) : InotifyObserver → Prop :=
| reachable_init :
    reachable env new_InotifyObserver
| reachable_schedule st name event_handler paths recursive :
    reachable env st →
    reachable env (schedule env name event_handler paths recursive st).2
| reachable_unschedule st names :
    reachable env st →
    reachable env (unschedule names st).2
| reachable_on_stopping st order :
    reachable env st →
    order ≡ₚ elements (_notifiers st) →
    reachable env (stop_notifiers order st).2.

(** The observer's own invariant: the notifier set holds addresses of
    notifier objects, and every rule's notifier is in the set. *)
Definition observer_inv (st : InotifyObserver) : Prop :=
  (∀ a, a ∈ _notifiers st → (a < List.length (notifier_objects st))%nat)
  ∧ (∀ name rule, _name_to_rule st !! name = Some rule →
       rule_notifier rule ∈ _notifiers st).

(** What stopping notifiers can change of the observer [st]: a running
    notifier may have become a stopped one, and the inotify instance may
    have been closed; the registry, the notifier set, and which notifier
    objects there are, with their dispatchers, stay. *)
Definition stopping_changes (st st' : InotifyObserver) : Prop :=
  _notifiers st' = _notifiers st
  ∧ _name_to_rule st' = _name_to_rule st
  ∧ List.length (notifier_objects st') = List.length (notifier_objects st)
  ∧ (∀ a obj, notifier_objects st !! a = Some obj →
       ∃ obj', notifier_objects st' !! a = Some obj'
               ∧ notifier_dispatcher obj' = notifier_dispatcher obj
               ∧ (notifier_status obj' = notifier_status obj
                  ∨ (notifier_status obj = Running
                     ∧ notifier_status obj' = Stopped)))
  ∧ (_wm st' = _wm st ∨ _wm st' = close_fd (_wm st)).

(** Where the thread of the notifier at address [a] stands. *)
Definition status_of (st : InotifyObserver) (a : nat) : option NotifierStatus :=
  notifier_status <$> notifier_objects st !! a.

(** [wd] is a watch descriptor recorded in a rule that [unschedule names]
    targets: every rule when no name is given, the named ones otherwise. *)
Definition targeted (names : list string) (name : string) : Prop :=
  names = [] ∨ name ∈ names.

Definition recorded_wd (names : list string) (st : InotifyObserver) (wd : Z)
    : Prop :=
  ∃ name rule path,
    targeted names name
    ∧ _name_to_rule st !! name = Some rule
    ∧ rule_descriptors rule !! path = Some wd.

(* ===================================================================== *)
(** * Statements of the specification, in its own words                   *)
(* ===================================================================== *)

(** "Unmatched MoveFrom ... is treated as effectively a Deleted at the
    source path -- must not be silently dropped": the notification makes
    the dispatcher pass a Deleted event at its path to the handler. *)
Definition move_from_reported_as_deleted (env : Collaborators)
    (self : _ProcessEventDispatcher) (event : Event) : Prop :=
  ∃ events e,
    process_event env self event = inr events
    ∧ e ∈ events
    ∧ (e = DirDeletedEvent (absolute_path env (pathname event))
       ∨ e = FileDeletedEvent (absolute_path env (pathname event))).

(** "For each targeted rule: removes all its kernel watch handles, signals
    its worker to stop, releases the registry entry.  Fails with NotFound
    if a named rule does not exist." *)
Definition unschedule_tears_down (names : list string)
    (st : InotifyObserver) : Prop :=
  let res := unschedule names st in
  ((∃ n, n ∈ names ∧ _name_to_rule st !! n = None) →
     ∃ n, res.1 = inl (KeyError n))
  ∧ (∀ name rule,
       targeted names name →
       _name_to_rule st !! name = Some rule →
       (∀ path wd, rule_descriptors rule !! path = Some wd →
                   wmd (_wm res.2) !! wd = None)
       ∧ status_of res.2 (rule_notifier rule) = Some Stopped
       ∧ _name_to_rule res.2 !! name = None).


(* ===================================================================== *)
(** * Example inputs                                                      *)
(* ===================================================================== *)

Module Examples.
(** Paths are normalized already, every path resolves and can be
    watched, no directory has subdirectories; the index knows the tree
    under [/tmp/w]. *)
Definition env : Collaborators :=
  {| absolute_path := λ p, p;
     real_absolute_path := λ p, Some p;
     subdirs := λ _, [];
     path_index := [mkEntry "/tmp/w/a.txt" false;
                    mkEntry "/tmp/w/b" true;
                    mkEntry "/tmp/w/b/c" false;
                    mkEntry "/tmp/w2" true;
                    mkEntry "/tmp/other" false];
     watchable := λ _, true |}.

Definition recursive_dispatcher : _ProcessEventDispatcher :=
  mkDispatcher "h" true.
Definition flat_dispatcher : _ProcessEventDispatcher :=
  mkDispatcher "h" false.

Definition dir_moved : Event :=
  mkEvent IN_MOVED_TO "/tmp/w2" (Some "/tmp/w") true (Some 7).
Definition file_moved : Event :=
  mkEvent IN_MOVED_TO "/tmp/w/b.txt" (Some "/tmp/w/a.txt") false (Some 8).
Definition moved_away : Event :=
  mkEvent IN_MOVED_FROM "/tmp/w/a.txt" None false (Some 9).
Definition attrib_changed : Event :=
  mkEvent IN_ATTRIB "/tmp/w/a.txt" None false None.

(** The observer after [schedule("r", h, ["/a"])]. *)
Definition one_rule : InotifyObserver :=
  (schedule env "r" "h" (PyList [PyStr "/a"]) false new_InotifyObserver).2.
End Examples.

(* ===================================================================== *)
(** * Further parts of the module                                         *)
(* ===================================================================== *)

(** ** What the handler can read off an event: watchdog.events' event
    types (the module imports their names) and the two attributes every
    event has. *)
Inductive EventType : Type :=
| EVENT_TYPE_MOVED
| EVENT_TYPE_DELETED
| EVENT_TYPE_CREATED
| EVENT_TYPE_MODIFIED.

Definition event_type (e : FileSystemEvent) : EventType :=
  match e with
  | DirMovedEvent _ _ | FileMovedEvent _ _ => EVENT_TYPE_MOVED
  | DirDeletedEvent _ | FileDeletedEvent _ => EVENT_TYPE_DELETED
  | DirCreatedEvent _ | FileCreatedEvent _ => EVENT_TYPE_CREATED
  | DirModifiedEvent _ | FileModifiedEvent _ => EVENT_TYPE_MODIFIED
  end.

Definition event_src_path (e : FileSystemEvent) : string :=
  match e with
  | DirMovedEvent p _ | FileMovedEvent p _
  | DirDeletedEvent p | FileDeletedEvent p
  | DirCreatedEvent p | FileCreatedEvent p
  | DirModifiedEvent p | FileModifiedEvent p => p
  end.

Definition event_is_directory (e : FileSystemEvent) : bool :=
  match e with
  | DirMovedEvent _ _ | DirDeletedEvent _
  | DirCreatedEvent _ | DirModifiedEvent _ => true
  | _ => false
  end.

(** ** [check_kwargs] and [my_init]. *)

(** Python's [fmt % args] for a format whose only conversions are [%s]
    and string arguments; a single string on the right of [%] is the
    one-element list.  Too few arguments and arguments left over are
    both a TypeError. *)
Fixpoint percent_format (fmt : string) (args : list string)
    : Exception + string :=
  match fmt with
  | EmptyString =>
      match args with
      | [] => inr EmptyString
      | _ :: _ =>
          inl (TypeError
                 "not all arguments converted during string formatting")
      end
  | String "%"%char (String "s"%char rest) =>
      match args with
      | [] => inl (TypeError "not enough arguments for format string")
      | arg :: args =>
          match percent_format rest args with
          | inl e => inl e
          | inr tail => inr (arg +:+ tail)
          end
      end
  | String c rest =>
      match percent_format rest args with
      | inl e => inl e
      | inr tail => inr (String c tail)
      end
  end.

(** The keyword arguments [my_init] receives: the two it reads, each
    given or not, and the names of any others. *)
Record Kwargs : Type := mkKwargs {
  kw_event_handler : option Handler;
  kw_recursive : option bool;
  kw_other : gset string
}.

(** [arg in kwargs]. *)
Definition kwargs_contains (kwargs : Kwargs) (arg : string) : bool :=
  if String.eqb arg "event_handler"
  then bool_decide (is_Some (kw_event_handler kwargs))
  else if String.eqb arg "recursive"
  then bool_decide (is_Some (kw_recursive kwargs))
  else bool_decide (arg ∈ kw_other kwargs).

(** What [check_kwargs] and [my_init] can raise: an exception of the
    kinds above, or the two-argument [ValueError(message, method)]. *)
Inductive KwargsRaise : Type :=
| Raised (e : Exception)
| ValueError2 (message method : string).

Definition check_kwargs (kwargs : Kwargs) (arg method : string)
    : KwargsRaise + unit :=
  if negb (kwargs_contains kwargs arg)
  then
    match percent_format "`%s` argument to method %s is not specified."
                         [arg] with
    | inl e => inl (Raised e)
    | inr message => inl (ValueError2 message method)
    end
  else inr tt.

Definition my_init (kwargs : Kwargs)
    : KwargsRaise + _ProcessEventDispatcher :=
  match check_kwargs kwargs "event_handler" "my_init" with
  | inl e => inl e
  | inr _ =>
      match check_kwargs kwargs "recursive" "my_init" with
      | inl e => inl e
      | inr _ =>
          match kw_event_handler kwargs, kw_recursive kwargs with
          | Some event_handler, Some recursive =>
              inr (mkDispatcher event_handler recursive)
          | None, _ => inl (Raised (KeyError "event_handler"))
          | _, None => inl (Raised (KeyError "recursive"))
          end
      end
  end.

(** ** Reading [schedule]. *)

(** The items the loop of [schedule] goes through (lines 139-145): the
    string itself when [paths] is one, else what iterating over [paths]
    yields; none when [paths] cannot be iterated over. *)
Definition loop_items (paths : PyValue) : option (list PyValue) :=
  match paths with
  | PyStr s => Some [PyStr s]
  | PyList items | PyObject _ _ (Some items) => Some items
  | _ => None
  end.

Definition as_string (v : PyValue) : option string :=
  match v with
  | PyStr s => Some s
  | _ => None
  end.

(** The strings [schedule] takes [paths] to stand for: the string itself,
    or the items of a list or of another iterable when all of them are
    strings. *)
Definition path_strings (paths : PyValue) : option (list string) :=
  loop_items paths ≫= mapM as_string.

(** The observer once [schedule] has created the notifier and put it
    into the notifier set (lines 141-144). *)
Definition with_new_notifier (dispatcher : _ProcessEventDispatcher)
    (st : InotifyObserver) : InotifyObserver :=
  {| _wm := _wm st;
     _notifiers := {[List.length (notifier_objects st)]} ∪ _notifiers st;
     _name_to_rule := _name_to_rule st;
     notifier_objects :=
       notifier_objects st ++ [mkNotifier dispatcher Initial] |}.

(** One call of a method of the observer, from the state before to the
    state after, whether the call returned or raised. *)
Inductive method_call (env : Collaborators)
    : InotifyObserver → InotifyObserver → Prop :=
| call_schedule st name event_handler paths recursive :
    method_call env st
      (schedule env name event_handler paths recursive st).2
| call_unschedule st names :
    method_call env st (unschedule names st).2
| call_on_stopping st order :
    order ≡ₚ elements (_notifiers st) →
    method_call env st (stop_notifiers order st).2.

(** The kernel hands out positive descriptors, upwards: every watch
    there is has a descriptor above zero and below the next one. *)
Definition watch_manager_inv (wm : WatchManager) : Prop :=
  0 < next_wd wm
  ∧ ∀ wd, is_Some (wmd wm !! wd) → 0 < wd < next_wd wm.

(** Every entry of the descriptor dict [d] is a watch on its path, or
    the negative descriptor of a watch the kernel refused. *)
Definition live (d : gmap string Z) (wm : WatchManager) : Prop :=
  ∀ (q : string) (k : Z),
    d !! q = Some k → k = -1 ∨ wmd wm !! k = Some q.

(** Every watch of [wm] is a watch of [wm'], on the same path. *)
Definition kept (wm wm' : WatchManager) : Prop :=
  ∀ (k : Z) (q : string), wmd wm !! k = Some q → wmd wm' !! k = Some q.

(** [path] is not watched. *)
Definition unwatched (wm : WatchManager) (path : string) : Prop :=
  ∀ wd, wmd wm !! wd ≠ Some path.

Module Cases.
Definition created : Event :=
  mkEvent IN_CREATE "/tmp/w/new" None true None.
Definition moved_in : Event :=
  mkEvent IN_MOVED_TO "/tmp/w/in.txt" None false (Some 3).
Definition both_given : Kwargs :=
  mkKwargs (Some "h") (Some true) ∅.
Definition handler_only : Kwargs :=
  mkKwargs (Some "h") None ∅.

(** As [Examples.env], but the kernel refuses a watch on [/gone]. *)
Definition refusing_env : Collaborators :=
  {| absolute_path := λ p, p;
     real_absolute_path := λ p, Some p;
     subdirs := λ _, [];
     path_index := [];
     watchable := λ p, negb (String.eqb p "/gone") |}.

(** The observer after [schedule("r", h, ["/a"])] and
    [schedule("q", h, "/b", recursive=True)]. *)
Definition two_rules : InotifyObserver :=
  (schedule Examples.env "q" "h" (PyStr "/b") true Examples.one_rule).2.
End Cases.

(* ===================================================================== *)
(** * Paths and prefixes                                                  *)
(* ===================================================================== *)

Lemma prefix_split (a p : string) :
  String.prefix a p = true → ∃ rel, p = a +:+ rel.
Proof.
  revert p. induction a as [|c a IH]; intros p Hp.
  - exists p. reflexivity.
  - destruct p as [|c' p]; simpl in Hp; [discriminate|].
    destruct (ascii_dec c c') as [->|]; [|discriminate].
    destruct (IH p Hp) as [rel ->]. exists rel. reflexivity.
Qed.

Lemma prefix_app (a rel : string) : String.prefix a (a +:+ rel) = true.
Proof.
  induction a as [|c a IH]; simpl.
  - destruct rel; reflexivity.
  - destruct (ascii_dec c c); [assumption | congruence].
Qed.

Lemma substring_all (s : string) :
  String.substring 0 (String.length s) s = s.
Proof. induction s as [|c s IH]; simpl; [reflexivity | by rewrite IH]. Qed.

Lemma substring_after (a rel : string) :
  String.substring (String.length a)
                   (String.length (a +:+ rel) - String.length a)
                   (a +:+ rel) = rel.
Proof.
  induction a as [|c a IH]; simpl.
  - rewrite Nat.sub_0_r. apply substring_all.
  - exact IH.
Qed.

Lemma rewrite_prefix_app (old new rel : string) :
  rewrite_prefix old new (old +:+ rel) = new +:+ rel.
Proof.
  unfold rewrite_prefix. rewrite prefix_app. by rewrite substring_after.
Qed.

Lemma append_assoc (a b c : string) : (a +:+ b) +:+ c = a +:+ (b +:+ c).
Proof.
  induction a as [|x a IH]; [reflexivity|].
  change (String x ((a +:+ b) +:+ c) = String x (a +:+ b +:+ c)).
  by rewrite IH.
Qed.

Lemma append_empty_r (s : string) : s +:+ "" = s.
Proof.
  induction s as [|x s IH]; [reflexivity|].
  change (String x (s +:+ "") = String x s). by rewrite IH.
Qed.

Lemma is_descendant_split (d p : string) :
  is_descendant d p = true → ∃ rel, rel ≠ "" ∧ p = d +:+ "/" +:+ rel.
Proof.
  unfold is_descendant. intros [Hp Hl]%andb_true_iff.
  destruct (prefix_split _ _ Hp) as [rel ->].
  exists rel. split; [|apply append_assoc].
  intros ->. apply Nat.ltb_lt in Hl.
  rewrite append_empty_r in Hl. lia.
Qed.

(** Every synthesized event moves one known descendant, from its path
    under the old directory to the same relative path under the new one. *)
Lemma get_moved_events_for_spec (index : list Entry) (old new : string) :
  Forall2
    (λ e ev, ∃ rel,
        rel ≠ ""
        ∧ entry_path e = old +:+ "/" +:+ rel
        ∧ ev = (if entry_is_dir e then DirMovedEvent else FileMovedEvent)
                 (old +:+ "/" +:+ rel) (new +:+ "/" +:+ rel))
    (descendants_of index old) (get_moved_events_for index old new).
Proof.
  unfold get_moved_events_for.
  assert (H : Forall (λ e, is_descendant old (entry_path e) = true)
                     (descendants_of index old)).
  { unfold descendants_of. induction index as [|e index IH]; simpl.
    - constructor.
    - destruct (is_descendant old (entry_path e)) eqn:E; [|assumption].
      constructor; assumption. }
  induction H as [|e l He _ IH]; simpl; constructor; [|exact IH].
  destruct (is_descendant_split _ _ He) as (rel & Hrel & Hp).
  exists rel. split; [assumption|]. split; [assumption|].
  unfold moved_event_for. rewrite Hp, rewrite_prefix_app.
  destruct (entry_is_dir e); reflexivity.
Qed.

(* ===================================================================== *)
(** * The dispatcher                                                      *)
(* ===================================================================== *)

Section DispatcherFacts.
Variable env : Collaborators.
Variable self : _ProcessEventDispatcher.

(** C1.  A directory-level move notification on a recursive rule, with
    N descendant paths known under the old directory: the dispatcher
    returns after dispatching exactly N synthesized Moved events, one
    per descendant and in the descendants' order, each from the
    descendant's path to the same relative path under the new directory,
    and then, after all of them, the directory's own Moved event. *)
Theorem recursive_dir_move_expands (event : Event) (src : string) :
  maskname event = IN_MOVED_TO →
  src_pathname event = Some src →
  dir event = true →
  is_recursive self = true →
  let old := absolute_path env src in
  let new := absolute_path env (pathname event) in
  let known := descendants_of (path_index env) old in
  ∃ synthesized,
    process_event env self event
      = inr (synthesized ++ [DirMovedEvent old new])
    ∧ List.length synthesized = List.length known
    ∧ Forall2
        (λ e ev, ∃ rel,
            rel ≠ ""
            ∧ entry_path e = old +:+ "/" +:+ rel
            ∧ ev = (if entry_is_dir e then DirMovedEvent else FileMovedEvent)
                     (old +:+ "/" +:+ rel) (new +:+ "/" +:+ rel))
        known synthesized.
Proof.
  intros Hm Hs Hd Hr old new known.
  exists (get_moved_events_for (path_index env) old new).
  split; [|split].
  - unfold process_event, process_IN_MOVED_TO.
    rewrite Hm, Hs, Hd, Hr. reflexivity.
  - unfold get_moved_events_for. apply List.length_map.
  - apply get_moved_events_for_spec.
Qed.

(** C2, as the code has it.  An IN_MOVED_FROM notification, matched
    later or not, is not translated: the class has no method for it, so
    no event is dispatched for it. *)
Theorem move_from_dispatches_nothing (event : Event) :
  maskname event = IN_MOVED_FROM →
  process_event env self event = inr [].
Proof. intros Hm. unfold process_event. rewrite Hm. reflexivity. Qed.

(** C8.  A move notification on a non-recursive rule, or for a file on
    any rule, dispatches exactly one event, the Moved event from the
    source path to the path of the notification: no descendant is
    looked up. *)
Theorem plain_move_dispatches_one (event : Event) (src : string) :
  maskname event = IN_MOVED_TO →
  src_pathname event = Some src →
  is_recursive self = false ∨ dir event = false →
  process_event env self event
    = inr [(if dir event then DirMovedEvent else FileMovedEvent)
             (absolute_path env src) (absolute_path env (pathname event))].
Proof.
  intros Hm Hs Hcase. unfold process_event, process_IN_MOVED_TO.
  rewrite Hm, Hs.
  destruct (dir event) eqn:Hd; [|reflexivity].
  destruct Hcase as [Hr|]; [|discriminate].
  rewrite Hr. reflexivity.
Qed.

(** C9.  One raw record, read once as an attribute change and once as
    a completed write, is translated the same way: exactly one Modified
    event at the record's path, for a directory or for a file as the
    record's [dir] flag says. *)
Theorem attrib_same_as_close_write (path : string)
    (src : option string) (is_dir : bool) (c : option Z) :
  process_event env self (mkEvent IN_ATTRIB path src is_dir c)
    = process_event env self (mkEvent IN_CLOSE_WRITE path src is_dir c)
  ∧ process_event env self (mkEvent IN_ATTRIB path src is_dir c)
    = inr [(if is_dir then DirModifiedEvent else FileModifiedEvent)
             (absolute_path env path)].
Proof.
  split; [reflexivity|].
  unfold process_event, process_IN_ATTRIB, process_IN_CLOSE_WRITE; simpl.
  destruct is_dir; reflexivity.
Qed.
End DispatcherFacts.

(** The tree [/tmp/w], with three known descendants, is moved to
    [/tmp/w2]. *)
Lemma recursive_dir_move_expands_witness :
  ∃ synthesized,
    process_event Examples.env Examples.recursive_dispatcher Examples.dir_moved
      = inr (synthesized ++ [DirMovedEvent "/tmp/w" "/tmp/w2"])
    ∧ List.length synthesized = 3%nat.
Proof.
  destruct (recursive_dir_move_expands Examples.env
              Examples.recursive_dispatcher Examples.dir_moved "/tmp/w"
              eq_refl eq_refl eq_refl eq_refl) as (s & H1 & H2 & _).
  exists s. split; [exact H1 | exact H2].
Defined.

(** C2: an IN_MOVED_FROM notification that no IN_MOVED_TO follows is not
    reported as a deletion. *)
Lemma move_from_not_reported :
  ¬ move_from_reported_as_deleted
      Examples.env Examples.flat_dispatcher Examples.moved_away.
Proof.
  intros (events & e & Hret & Hin & _).
  vm_compute in Hret. injection Hret as <-.
  by apply not_elem_of_nil in Hin.
Qed.

Lemma move_from_dispatches_nothing_witness :
  process_event Examples.env Examples.flat_dispatcher Examples.moved_away
    = inr [].
Proof.
  apply (move_from_dispatches_nothing Examples.env Examples.flat_dispatcher
           Examples.moved_away).
  reflexivity.
Defined.

Lemma plain_move_dispatches_one_witness :
  process_event Examples.env Examples.recursive_dispatcher Examples.file_moved
    = inr [FileMovedEvent "/tmp/w/a.txt" "/tmp/w/b.txt"].
Proof.
  apply (plain_move_dispatches_one Examples.env Examples.recursive_dispatcher
           Examples.file_moved "/tmp/w/a.txt"); [reflexivity | reflexivity |].
  right. reflexivity.
Defined.

(** The tree of the example, moved: the three descendants first, the
    directory last; [/tmp/w2] and [/tmp/other] are not below [/tmp/w]. *)
Example recursive_dir_move_trace :
  process_event Examples.env Examples.recursive_dispatcher Examples.dir_moved
    = inr [FileMovedEvent "/tmp/w/a.txt" "/tmp/w2/a.txt";
           DirMovedEvent "/tmp/w/b" "/tmp/w2/b";
           FileMovedEvent "/tmp/w/b/c" "/tmp/w2/b/c";
           DirMovedEvent "/tmp/w" "/tmp/w2"].
Proof. reflexivity. Qed.

(* ===================================================================== *)
(** * The watch manager                                                   *)
(* ===================================================================== *)

Lemma add_one_watch_keeps (env : Collaborators) (wm : WatchManager)
    (p : string) (wd : Z) :
  is_Some (wmd wm !! wd) → is_Some (wmd (add_one_watch env wm p).1 !! wd).
Proof.
  intros H. unfold add_one_watch.
  destruct (negb (fd_open wm && watchable env p)); [assumption|].
  destruct (wd_of_path (wmd wm) p); simpl; [assumption|].
  destruct (decide (next_wd wm = wd)) as [->|Hne].
  - rewrite lookup_insert_eq. eauto.
  - by rewrite lookup_insert_ne.
Qed.

Lemma add_watches_keeps (env : Collaborators) (paths : list string) :
  ∀ (wm : WatchManager) (acc : gmap string Z) (wd : Z),
    is_Some (wmd wm !! wd) →
    is_Some (wmd (add_watches env wm paths acc).1 !! wd).
Proof.
  induction paths as [|p paths IH]; intros wm acc wd H; simpl; [assumption|].
  pose proof (add_one_watch_keeps env wm p wd H) as H1.
  destruct (add_one_watch env wm p) as [wm1 wd1]. apply IH. exact H1.
Qed.

Lemma add_watch_keeps (env : Collaborators) (wm : WatchManager)
    (path : string) (rec : bool) (wd : Z) :
  is_Some (wmd wm !! wd) →
  is_Some (wmd (add_watch env wm path rec).1 !! wd).
Proof. apply add_watches_keeps. Qed.

Lemma lookup_foldr_delete (m : gmap Z string) (ks : list Z) (k : Z) :
  foldr delete m ks !! k = if decide (k ∈ ks) then None else m !! k.
Proof.
  induction ks as [|k' ks IH]; cbn [foldr].
  - destruct (decide (k ∈ [])) as [H|_]; [|reflexivity].
    by apply not_elem_of_nil in H.
  - destruct (decide (k' = k)) as [->|Hne].
    + rewrite lookup_delete_eq.
      destruct (decide (k ∈ k :: ks)) as [_|H]; [reflexivity|].
      exfalso. apply H. left.
    + rewrite lookup_delete_ne by assumption. rewrite IH.
      destruct (decide (k ∈ ks)) as [H|H],
               (decide (k ∈ k' :: ks)) as [H'|H']; try reflexivity.
      * exfalso. apply H'. by right.
      * exfalso. apply elem_of_cons in H' as [->|H']; contradiction.
Qed.

Lemma rm_watch_lookup (wm : WatchManager) (wds : list Z) (k : Z) :
  wmd (rm_watch wm wds) !! k
    = if decide (k ∈ wds) then None else wmd wm !! k.
Proof. apply lookup_foldr_delete. Qed.

Lemma elem_of_values (d : gmap string Z) (wd : Z) :
  wd ∈ values d ↔ ∃ path, d !! path = Some wd.
Proof.
  unfold values. rewrite list_elem_of_fmap. split.
  - intros ([p w] & -> & Hin). exists p. by apply elem_of_map_to_list in Hin.
  - intros [p Hp]. exists (p, wd). split; [reflexivity|].
    by apply elem_of_map_to_list.
Qed.

(* ===================================================================== *)
(** * The observer: loops                                                 *)
(* ===================================================================== *)

Lemma observer_eq (s t : InotifyObserver) :
  _wm s = _wm t → _notifiers s = _notifiers t →
  _name_to_rule s = _name_to_rule t →
  notifier_objects s = notifier_objects t → s = t.
Proof. destruct s, t; simpl; congruence. Qed.

(** ** Stopping notifiers *)

Lemma stopping_changes_refl (st : InotifyObserver) : stopping_changes st st.
Proof.
  repeat split; try reflexivity; [|by left].
  intros a obj Ha. exists obj. split; [exact Ha|]. split; [reflexivity|].
  by left.
Qed.

Lemma stopping_changes_trans (s1 s2 s3 : InotifyObserver) :
  stopping_changes s1 s2 → stopping_changes s2 s3 → stopping_changes s1 s3.
Proof.
  intros (A1 & A2 & A3 & A4 & A5) (B1 & B2 & B3 & B4 & B5).
  split; [congruence|]. split; [congruence|]. split; [congruence|]. split.
  - intros a obj Ha.
    destruct (A4 a obj Ha) as (obj2 & H2 & Hd2 & Hs2).
    destruct (B4 a obj2 H2) as (obj3 & H3 & Hd3 & Hs3).
    exists obj3. split; [exact H3|]. split; [congruence|].
    destruct Hs2 as [Hs2|[Hr2 Hs2]], Hs3 as [Hs3|[Hr3 Hs3]].
    + left. congruence.
    + right. split; congruence.
    + right. split; congruence.
    + congruence.
  - destruct A5 as [A5|A5], B5 as [B5|B5]; rewrite B5, A5;
      [by left | by right | by right | by right].
Qed.

(** The observer once the running notifier at [a] has been stopped. *)
Lemma stopped_changes (a : nat) (obj : ThreadedNotifier)
    (st : InotifyObserver) (wm : WatchManager) :
  notifier_objects st !! a = Some obj →
  notifier_status obj = Running →
  wm = _wm st ∨ wm = close_fd (_wm st) →
  stopping_changes st
    {| _wm := wm; _notifiers := _notifiers st;
       _name_to_rule := _name_to_rule st;
       notifier_objects :=
         alter (with_status Stopped) a (notifier_objects st) |}.
Proof.
  intros Ha Hrun Hwm.
  split; [reflexivity|]. split; [reflexivity|].
  split; [apply length_alter|]. split; [|exact Hwm].
  intros b obj' Hb. cbn [notifier_objects].
  destruct (decide (a = b)) as [->|Hne].
  - rewrite list_lookup_alter_eq, Hb. eexists. split; [reflexivity|].
    split; [reflexivity|]. right. split; [congruence | reflexivity].
  - rewrite list_lookup_alter_ne by assumption. exists obj'.
    split; [exact Hb|]. split; [reflexivity | by left].
Qed.

(** One call of [notifier.stop()]. *)
Lemma notifier_stop_changes (a : nat) (st : InotifyObserver) :
  stopping_changes st (notifier_stop a st).2
  ∧ ∀ b, b ≠ a →
         notifier_objects (notifier_stop a st).2 !! b
           = notifier_objects st !! b.
Proof.
  unfold notifier_stop.
  destruct (notifier_objects st !! a) as [obj|] eqn:Ha;
    cbn [fmap option_fmap option_map];
    [|split; [apply stopping_changes_refl | reflexivity]].
  destruct (notifier_status obj) eqn:Es;
    try (split; [apply stopping_changes_refl | reflexivity]).
  destruct (fd_open (_wm st)); cbn [snd notifier_objects];
    (split; [|intros b Hb; by apply list_lookup_alter_ne]).
  - apply (stopped_changes a obj); auto.
  - apply (stopped_changes a obj); auto.
Qed.



(** Stopping the notifiers of a list, one after the other. *)
Lemma stop_notifiers_changes (order : list nat) :
  ∀ st : InotifyObserver,
    stopping_changes st (stop_notifiers order st).2
    ∧ ∀ b, b ∉ order →
           notifier_objects (stop_notifiers order st).2 !! b
             = notifier_objects st !! b.
Proof.
  unfold stop_notifiers.
  induction order as [|a order IH]; intros st; cbn [for_each].
  - split; [apply stopping_changes_refl | reflexivity].
  - unfold bind.
    destruct (notifier_stop_changes a st) as [H1 H2].
    destruct (notifier_stop a st) as [[e|[]] st1]; cbn [snd] in *.
    + split; [exact H1|]. intros b Hb. apply H2. intros ->. apply Hb. left.
    + destruct (IH st1) as [G1 G2].
      split; [by apply (stopping_changes_trans st st1)|].
      intros b Hb. rewrite G2, H2; [reflexivity | |].
      * intros ->. apply Hb. left.
      * intros Hin. apply Hb. by right.
Qed.

Lemma classic_or_list {A} (k : Z) (l : list A) (f : A → list Z) :
  (∃ x, x ∈ l ∧ k ∈ f x) ∨ ¬ (∃ x, x ∈ l ∧ k ∈ f x).
Proof.
  induction l as [|x l [IH|IH]].
  - right. intros (y & Hy & _). by apply not_elem_of_nil in Hy.
  - left. destruct IH as (y & Hy & Hk). exists y.
    split; [by right | assumption].
  - destruct (decide (k ∈ f x)) as [Hx|Hx].
    + left. exists x. split; [left | assumption].
    + right. intros (y & Hy & Hk).
      apply elem_of_cons in Hy as [->|Hy]; [contradiction|].
      apply IH. exists y. split; assumption.
Qed.

(** Removing the watches of a list of rules, one rule after the other. *)
Lemma for_each_rm_watch {A} (f : A → list Z) (l : list A) :
  ∀ st : InotifyObserver,
    (for_each l (λ x, wm_rm_watch (f x)) st).1 = inr tt
    ∧ _notifiers (for_each l (λ x, wm_rm_watch (f x)) st).2 = _notifiers st
    ∧ _name_to_rule (for_each l (λ x, wm_rm_watch (f x)) st).2
      = _name_to_rule st
    ∧ notifier_objects (for_each l (λ x, wm_rm_watch (f x)) st).2
      = notifier_objects st
    ∧ ∀ k,
        ((∃ x, x ∈ l ∧ k ∈ f x) →
           wmd (_wm (for_each l (λ x, wm_rm_watch (f x)) st).2) !! k = None)
        ∧ (¬ (∃ x, x ∈ l ∧ k ∈ f x) →
           wmd (_wm (for_each l (λ x, wm_rm_watch (f x)) st).2) !! k
             = wmd (_wm st) !! k).
Proof.
  induction l as [|x l IH]; intros st; cbn [for_each].
  - repeat split.
    intros (y & Hy & _). by apply not_elem_of_nil in Hy.
  - unfold bind; simpl.
    destruct (IH {| _wm := rm_watch (_wm st) (f x);
                    _notifiers := _notifiers st;
                    _name_to_rule := _name_to_rule st;
                    notifier_objects := notifier_objects st |})
      as (H1 & H2 & H3 & H4 & H5).
    simpl in H2, H3, H4.
    split; [exact H1|]. split; [exact H2|]. split; [exact H3|].
    split; [exact H4|]. intros k. split.
    + intros (y & Hy & Hk).
      destruct (classic_or_list k l f) as [Hl|Hl].
      * by apply H5.
      * destruct (H5 k) as [_ Hkeep]. rewrite (Hkeep Hl). cbn [_wm].
        rewrite rm_watch_lookup.
        apply elem_of_cons in Hy as [->|Hy].
        -- destruct (decide (k ∈ f x)); [reflexivity | contradiction].
        -- exfalso. apply Hl. exists y. split; assumption.
    + intros Hno.
      destruct (H5 k) as [_ Hkeep]. rewrite Hkeep.
      * cbn [_wm]. rewrite rm_watch_lookup.
        destruct (decide (k ∈ f x)) as [Hx|]; [|reflexivity].
        exfalso. apply Hno. exists x. split; [left | assumption].
      * intros (y & Hy & Hk). apply Hno. exists y.
        split; [by right | assumption].
Qed.

(* ===================================================================== *)
(** * unschedule                                                          *)
(* ===================================================================== *)

Section Unschedule.
Lemma for_each_named_frame (names : list string) :
  ∀ st : InotifyObserver,
    _notifiers (for_each names unschedule_name st).2 = _notifiers st
    ∧ _name_to_rule (for_each names unschedule_name st).2
      = _name_to_rule st
    ∧ notifier_objects (for_each names unschedule_name st).2
      = notifier_objects st.
Proof.
  induction names as [|n names IH]; intros st; cbn [for_each].
  - repeat split.
  - unfold bind, unschedule_name, name_to_rule_get, bind.
    destruct (_name_to_rule st !! n) as [r|]; simpl; [|repeat split].
    apply (IH {| _wm := rm_watch (_wm st) (values (rule_descriptors r));
                 _notifiers := _notifiers st;
                 _name_to_rule := _name_to_rule st;
                 notifier_objects := notifier_objects st |}).
Qed.

Lemma for_each_named_missing (names : list string) :
  ∀ st : InotifyObserver,
    (∃ n, n ∈ names ∧ _name_to_rule st !! n = None) →
    ∃ n, n ∈ names ∧ _name_to_rule st !! n = None
         ∧ (for_each names unschedule_name st).1 = inl (KeyError n).
Proof.
  induction names as [|n names IH]; intros st (m & Hm & Hnone).
  - by apply not_elem_of_nil in Hm.
  - cbn [for_each]. unfold bind, unschedule_name, name_to_rule_get, bind.
    destruct (_name_to_rule st !! n) as [r|] eqn:Hn; simpl.
    + apply elem_of_cons in Hm as [->|Hm]; [congruence|].
      destruct (IH {| _wm := rm_watch (_wm st) (values (rule_descriptors r));
                      _notifiers := _notifiers st;
                      _name_to_rule := _name_to_rule st;
                      notifier_objects := notifier_objects st |})
        as (k & Hk & Hknone & Hres).
      { exists m. split; assumption. }
      exists k. split; [by right|]. split; assumption.
    + exists n. split; [left|]. split; [assumption | reflexivity].
Qed.

Lemma for_each_named_found (names : list string) (rules : list _Rule) :
  ∀ st : InotifyObserver,
    Forall2 (λ n r, _name_to_rule st !! n = Some r) names rules →
    for_each names unschedule_name st
      = for_each rules (λ r, wm_rm_watch (values (rule_descriptors r))) st.
Proof.
  revert rules.
  induction names as [|n names IH]; intros rules st H;
    inversion H as [|? r ? rules' Hn Hrest]; subst; cbn [for_each].
  - reflexivity.
  - unfold bind. unfold unschedule_name at 1. unfold name_to_rule_get, bind.
    rewrite Hn. simpl. apply IH. exact Hrest.
Qed.

Lemma all_found_rules (reg : gmap string _Rule) (names : list string) :
  (∀ n, n ∈ names → is_Some (reg !! n)) →
  ∃ rules, Forall2 (λ n r, reg !! n = Some r) names rules.
Proof.
  induction names as [|n names IH]; intros H.
  - exists []. constructor.
  - destruct (H n) as [r Hr]; [left|].
    destruct IH as [rules Hrules]; [intros m Hm; apply H; by right|].
    exists (r :: rules). by constructor.
Qed.

Lemma Forall2_elem_of_r (reg : gmap string _Rule)
    (names : list string) (rules : list _Rule) (r : _Rule) :
  Forall2 (λ n r, reg !! n = Some r) names rules →
  r ∈ rules ↔ ∃ n, n ∈ names ∧ reg !! n = Some r.
Proof.
  induction 1 as [|n r' names rules Hn _ IH].
  - split; [intros H; by apply not_elem_of_nil in H|].
    intros (n & Hn & _). by apply not_elem_of_nil in Hn.
  - rewrite elem_of_cons, IH. split.
    + intros [->|(m & Hm & Hr)].
      * exists n. split; [left | assumption].
      * exists m. split; [by right | assumption].
    + intros (m & Hm & Hr). apply elem_of_cons in Hm as [->|Hm].
      * left. congruence.
      * right. exists m. split; assumption.
Qed.

(** [unschedule] touches the watch manager only. *)
Lemma unschedule_frame (names : list string) (st : InotifyObserver) :
  _name_to_rule (unschedule names st).2 = _name_to_rule st
  ∧ _notifiers (unschedule names st).2 = _notifiers st
  ∧ notifier_objects (unschedule names st).2 = notifier_objects st.
Proof.
  destruct names as [|n0 names0].
  - unfold unschedule, bind, get_state.
    destruct (for_each_rm_watch
                (λ item : string * _Rule,
                   values (rule_descriptors item.2))
                (map_to_list (_name_to_rule st)) st)
      as (_ & H2 & H3 & H4 & _).
    split; [exact H3|]. split; [exact H2 | exact H4].
  - change (unschedule (n0 :: names0) st)
      with (for_each (n0 :: names0) unschedule_name st).
    destruct (for_each_named_frame (n0 :: names0) st) as (F1 & F2 & F3).
    split; [exact F2|]. split; [exact F1 | exact F3].
Qed.

(** C4, as the code has it.  [unschedule] raises KeyError at a name
    that is not in the registry; when every given name is there, it
    returns, and the kernel watches it has removed are exactly those
    whose descriptor is recorded in a targeted rule (every rule when no
    name is given).  In every case the registry, the notifier set and
    the notifier threads are as they were: no worker is told to stop
    and no entry is released. *)
Theorem unschedule_removes_recorded_watches
    (names : list string) (st : InotifyObserver) :
  _name_to_rule (unschedule names st).2 = _name_to_rule st
  ∧ _notifiers (unschedule names st).2 = _notifiers st
  ∧ notifier_objects (unschedule names st).2 = notifier_objects st
  ∧ ((∃ n, n ∈ names ∧ _name_to_rule st !! n = None) →
       ∃ n, n ∈ names ∧ _name_to_rule st !! n = None
            ∧ (unschedule names st).1 = inl (KeyError n))
  ∧ ((∀ n, n ∈ names → is_Some (_name_to_rule st !! n)) →
       (unschedule names st).1 = inr tt
       ∧ ∀ wd,
           (recorded_wd names st wd →
              wmd (_wm (unschedule names st).2) !! wd = None)
           ∧ (¬ recorded_wd names st wd →
              wmd (_wm (unschedule names st).2) !! wd
                = wmd (_wm st) !! wd)).
Proof.
  destruct (unschedule_frame names st) as (F2 & F1 & F3).
  split; [exact F2|]. split; [exact F1|]. split; [exact F3|].
  clear F1 F2 F3.
  destruct names as [|n0 names0].
  - (* no name: every rule of the registry *)
    unfold unschedule, bind, get_state.
    destruct (for_each_rm_watch
                (λ item : string * _Rule,
                   values (rule_descriptors item.2))
                (map_to_list (_name_to_rule st)) st)
      as (H1 & _ & _ & _ & H5).
    split.
    { intros (n & Hn & _). by apply not_elem_of_nil in Hn. }
    intros _. split; [exact H1|]. intros wd.
    assert (E : recorded_wd [] st wd
                ↔ ∃ item : string * _Rule,
                    item ∈ map_to_list (_name_to_rule st)
                    ∧ wd ∈ values (rule_descriptors item.2)).
    { unfold recorded_wd, targeted. split.
      - intros (name & rule & path & _ & Hr & Hp).
        exists (name, rule). split; [by apply elem_of_map_to_list|].
        apply elem_of_values. by exists path.
      - intros ([name rule] & Hin & Hwd).
        apply elem_of_map_to_list in Hin.
        apply elem_of_values in Hwd as [path Hp].
        exists name, rule, path. split; [by left|]. split; assumption. }
    destruct (H5 wd) as [Hrm Hkeep]. split.
    + intros H. apply Hrm, E, H.
    + intros H. apply Hkeep. intros H'. apply H, E, H'.
  - (* the given names, in order *)
    change (unschedule (n0 :: names0) st)
      with (for_each (n0 :: names0) unschedule_name st).
    set (names := n0 :: names0).
    split; [apply for_each_named_missing|].
    intros Hall.
    destruct (all_found_rules _ _ Hall) as [rules Hrules].
    rewrite (for_each_named_found names rules st Hrules).
    destruct (for_each_rm_watch (λ r, values (rule_descriptors r)) rules st)
      as (H1 & _ & _ & _ & H5).
    split; [exact H1|]. intros wd.
    assert (E : recorded_wd names st wd
                ↔ ∃ r, r ∈ rules ∧ wd ∈ values (rule_descriptors r)).
    { unfold recorded_wd, targeted. split.
      - intros (name & rule & path & Ht & Hr & Hp).
        destruct Ht as [Ht|Ht]; [discriminate|].
        exists rule. split.
        + apply (Forall2_elem_of_r _ _ _ _ Hrules). by exists name.
        + apply elem_of_values. by exists path.
      - intros (r & Hin & Hwd).
        apply (Forall2_elem_of_r _ _ _ _ Hrules) in Hin as (n & Hn & Hr).
        apply elem_of_values in Hwd as [path Hp].
        exists n, r, path. split; [by right|]. split; assumption. }
    destruct (H5 wd) as [Hrm Hkeep]. split.
    + intros H. apply Hrm, E, H.
    + intros H. apply Hkeep. intros H'. apply H, E, H'.
Qed.
End Unschedule.

(* ===================================================================== *)
(** * schedule                                                            *)
(* ===================================================================== *)

Section Schedule.
Variable env : Collaborators.

(** The loop over the paths touches the watch manager only, and there
    it only adds. *)
Lemma watch_paths_frame (items : list PyValue) (recursive : bool) :
  ∀ (d : option (gmap string Z)) (st : InotifyObserver),
    _notifiers (watch_paths env items recursive d st).2 = _notifiers st
    ∧ _name_to_rule (watch_paths env items recursive d st).2
      = _name_to_rule st
    ∧ notifier_objects (watch_paths env items recursive d st).2
      = notifier_objects st
    ∧ ∀ wd, is_Some (wmd (_wm st) !! wd) →
            is_Some (wmd (_wm (watch_paths env items recursive d st).2)
                       !! wd).
Proof.
  induction items as [|path items IH]; intros d st; cbn [watch_paths].
  - repeat split. intros wd H. exact H.
  - destruct path as [|s|n|l|cls t it];
      try (repeat split; intros wd H; exact H).
    destruct (real_absolute_path env s) as [p|];
      [|repeat split; intros wd H; exact H].
    unfold bind, wm_add_watch.
    pose proof (add_watch_keeps env (_wm st) p recursive) as Hkeep.
    destruct (add_watch env (_wm st) p recursive) as [wm' ds].
    simpl in Hkeep.
    destruct (IH (Some ds)
                 {| _wm := wm'; _notifiers := _notifiers st;
                    _name_to_rule := _name_to_rule st;
                    notifier_objects := notifier_objects st |})
      as (H1 & H2 & H3 & H4).
    split; [exact H1|]. split; [exact H2|]. split; [exact H3|].
    intros wd H. apply H4, Hkeep, H.
Qed.

Lemma alter_last {A} (f : A → A) (l : list A) (x : A) :
  alter f (List.length l) (l ++ [x]) = l ++ [f x].
Proof.
  induction l as [|y l IH]; [reflexivity|].
  change (y :: alter f (List.length l) (l ++ [x]) = y :: (l ++ [f x])).
  by rewrite IH.
Qed.

(** The two ways [schedule] can end: before anything is touched, when
    [paths] is false; or after the notifier has been created and put
    into the set, with the rule stored and the notifier started only
    when the loop over the paths went through. *)
Lemma schedule_outcome (name : string) (event_handler : Handler)
    (paths : PyValue) (recursive : bool) (st : InotifyObserver) :
  let a := List.length (notifier_objects st) in
  let dispatcher := mkDispatcher event_handler recursive in
  let res := schedule env name event_handler paths recursive st in
  (truthy paths = false
   ∧ res = (inl (ValueError "Please specify a few paths."), st))
  ∨ (truthy paths = true
     ∧ _notifiers res.2 = {[a]} ∪ _notifiers st
     ∧ (∀ wd, is_Some (wmd (_wm st) !! wd) →
              is_Some (wmd (_wm res.2) !! wd))
     ∧ ((∃ e, res.1 = inl e
              ∧ _name_to_rule res.2 = _name_to_rule st
              ∧ notifier_objects res.2
                = notifier_objects st ++ [mkNotifier dispatcher Initial])
        ∨ (∃ d, res.1 = inr tt
                ∧ _name_to_rule res.2
                  = <[name := mkRule name a d]> (_name_to_rule st)
                ∧ notifier_objects res.2
                  = notifier_objects st
                      ++ [mkNotifier dispatcher Running]))).
Proof.
  intros a dispatcher res. subst res. unfold schedule.
  destruct (truthy paths) eqn:Ht; simpl; [right | left; by split].
  split; [reflexivity|].
  unfold bind at 1 2. unfold new_ThreadedNotifier, notifiers_add.
  cbn [fst snd].
  set (st1 := {| _wm := _wm st;
                 _notifiers := {[List.length (notifier_objects st)]}
                               ∪ _notifiers st;
                 _name_to_rule := _name_to_rule st;
                 notifier_objects :=
                   notifier_objects st
                     ++ [mkNotifier (mkDispatcher event_handler recursive)
                                    Initial] |}).
  assert (Hloop : ∀ items,
    let res := bind (watch_paths env items recursive None)
      (λ descriptors,
         match descriptors with
         | Some descriptors =>
             do_ name_to_rule_set name
                   (mkRule name (List.length (notifier_objects st))
                           descriptors);
             notifier_start (List.length (notifier_objects st))
         | None => raise (UnboundLocalError "descriptors")
         end) st1 in
    _notifiers res.2 = {[a]} ∪ _notifiers st
    ∧ (∀ wd, is_Some (wmd (_wm st) !! wd) →
             is_Some (wmd (_wm res.2) !! wd))
    ∧ ((∃ e, res.1 = inl e
             ∧ _name_to_rule res.2 = _name_to_rule st
             ∧ notifier_objects res.2
               = notifier_objects st ++ [mkNotifier dispatcher Initial])
       ∨ (∃ d, res.1 = inr tt
               ∧ _name_to_rule res.2
                 = <[name := mkRule name a d]> (_name_to_rule st)
               ∧ notifier_objects res.2
                 = notifier_objects st
                     ++ [mkNotifier dispatcher Running]))).
  { intros items. unfold bind.
    destruct (watch_paths_frame items recursive None st1)
      as (F1 & F2 & F3 & F4).
    destruct (watch_paths env items recursive None st1)
      as [[e|[d|]] st2];
      cbn [fst snd _notifiers _name_to_rule notifier_objects _wm] in *.
    - split; [exact F1|]. split; [exact F4|]. left. by exists e.
    - unfold bind, name_to_rule_set, notifier_start, set_notifier_status.
      cbn [fst snd _notifiers _name_to_rule notifier_objects _wm].
      split; [exact F1|]. split; [exact F4|]. right. exists d.
      split; [reflexivity|]. split; [by rewrite F2|].
      rewrite F3. apply (alter_last (with_status Running)).
    - split; [exact F1|]. split; [exact F4|]. left.
      by exists (UnboundLocalError "descriptors"). }
  destruct paths as [|s|n|items|cls t [items|]]; simpl in Ht;
    try discriminate.
  - apply (Hloop [PyStr s]).
  - simpl. split; [reflexivity|]. split; [intros wd H; exact H|].
    left. eexists. repeat split.
  - apply (Hloop items).
  - apply (Hloop items).
  - simpl. split; [reflexivity|]. split; [intros wd H; exact H|].
    left. eexists. repeat split.
Qed.
End Schedule.

Section ScheduleFacts.
Variable env : Collaborators.

(** When [paths] is false (None, the empty string, an empty list),
    [schedule] raises ValueError and has touched nothing. *)
Lemma schedule_false_paths_unchanged (name : string)
    (event_handler : Handler) (paths : PyValue) (recursive : bool)
    (st : InotifyObserver) :
  truthy paths = false →
  schedule env name event_handler paths recursive st
    = (inl (ValueError "Please specify a few paths."), st).
Proof. intros Ht. unfold schedule. rewrite Ht. reflexivity. Qed.

(** C10.  A non-empty string given as [paths] is scheduled as the list
    holding that one string: same outcome, same state. *)
Theorem schedule_string_as_singleton (name : string)
    (event_handler : Handler) (s : string) (recursive : bool)
    (st : InotifyObserver) :
  s ≠ "" →
  schedule env name event_handler (PyStr s) recursive st
    = schedule env name event_handler (PyList [PyStr s]) recursive st.
Proof.
  intros Hs. unfold schedule. cbn [truthy is_basestring List.length].
  destruct (String.eqb_spec s "") as [->|_]; [contradiction|].
  reflexivity.
Qed.
End ScheduleFacts.

Lemma schedule_string_as_singleton_witness :
  schedule Examples.env "r" "h" (PyStr "/a") true new_InotifyObserver
    = schedule Examples.env "r" "h" (PyList [PyStr "/a"]) true
               new_InotifyObserver.
Proof.
  apply (schedule_string_as_singleton Examples.env "r" "h" "/a" true
           new_InotifyObserver).
  discriminate.
Defined.

(** The empty string is not scheduled as the list holding it: the first
    call is refused, the second one goes on to watch the path. *)
Example schedule_empty_string_differs :
  (schedule Examples.env "r" "h" (PyStr "") false new_InotifyObserver).1
    = inl (ValueError "Please specify a few paths.")
  ∧ (schedule Examples.env "r" "h" (PyList [PyStr ""]) false
              new_InotifyObserver).1 = inr tt.
Proof. split; reflexivity. Qed.

(** C3.  [schedule("r", h, ["/a", 5])] on a new observer raises TypeError
    at the second path, and by then the kernel watches [/a] and the new
    notifier, never started, sits in the notifier set; only the registry
    is as it was. *)
Theorem schedule_bad_path_leaves_partial_state :
  let res := schedule Examples.env "r" "h" (PyList [PyStr "/a"; PyInt 5])
                      false new_InotifyObserver in
  res.1 = inl (TypeError "Path must be string, not 'int'.")
  ∧ wmd (_wm res.2) !! 1 = Some "/a"
  ∧ wmd (_wm new_InotifyObserver) !! 1 = None
  ∧ elements (_notifiers res.2) = [0%nat]
  ∧ elements (_notifiers new_InotifyObserver) = []
  ∧ status_of res.2 0 = Some Initial
  ∧ _name_to_rule res.2 !! "r" = None.
Proof. vm_compute. repeat split. Qed.

(** C6.  [schedule("r", h, ["/a", "/b"])] on a new observer returns with
    both paths watched, under descriptors 1 and 2, and with a rule whose
    descriptors hold the watch of [/b] alone; so [unschedule("r")] leaves
    the watch of [/a] in place. *)
Theorem schedule_keeps_last_descriptors_only :
  let res := schedule Examples.env "r" "h" (PyList [PyStr "/a"; PyStr "/b"])
                      false new_InotifyObserver in
  res.1 = inr tt
  ∧ wmd (_wm res.2) !! 1 = Some "/a"
  ∧ wmd (_wm res.2) !! 2 = Some "/b"
  ∧ (map_to_list ∘ rule_descriptors <$> _name_to_rule res.2 !! "r")
    = Some [("/b", 2)]
  ∧ (unschedule ["r"] res.2).1 = inr tt
  ∧ wmd (_wm (unschedule ["r"] res.2).2) !! 1 = Some "/a"
  ∧ wmd (_wm (unschedule ["r"] res.2).2) !! 2 = None.
Proof. vm_compute. repeat split. Qed.

(* ===================================================================== *)
(** * Reachable states                                                    *)
(* ===================================================================== *)

Lemma on_stopping_unfold (st : InotifyObserver) :
  on_stopping st = stop_notifiers (elements (_notifiers st)) st.
Proof. reflexivity. Qed.

Lemma reachable_inv (env : Collaborators) (st : InotifyObserver) :
  reachable env st → observer_inv st.
Proof.
  induction 1 as [|st name h paths rec _ [IHn IHr]
                  |st names _ [IHn IHr]
                  |st order _ [IHn IHr] _].
  - split.
    + intros a Ha. change (a ∈ (∅ : gset nat)) in Ha.
      by apply not_elem_of_empty in Ha.
    + intros name rule Hr.
      change ((∅ : gmap string _Rule) !! name = Some rule) in Hr.
      by rewrite lookup_empty in Hr.
  - destruct (schedule_outcome env name h paths rec st)
      as [[_ ->] | (_ & Hn & _ & Hcase)]; [by split|].
    assert (Hlen : ∀ s, List.length
                     (notifier_objects st
                        ++ [mkNotifier (mkDispatcher h rec) s])
                   = S (List.length (notifier_objects st))).
    { intros s. rewrite List.length_app. simpl. lia. }
    assert (Hset : ∀ a,
              a ∈ _notifiers (schedule env name h paths rec st).2 →
              (a < S (List.length (notifier_objects st)))%nat).
    { intros a Ha. rewrite Hn in Ha.
      apply elem_of_union in Ha as [Ha|Ha].
      - apply elem_of_singleton in Ha. lia.
      - specialize (IHn a Ha). lia. }
    destruct Hcase as [(e & _ & Hreg & Hobjs) | (d & _ & Hreg & Hobjs)];
      split.
    + intros a Ha. rewrite Hobjs, Hlen. by apply Hset.
    + intros n rule Hr. rewrite Hreg in Hr. rewrite Hn.
      apply elem_of_union_r. by apply (IHr n).
    + intros a Ha. rewrite Hobjs, Hlen. by apply Hset.
    + intros n rule Hr. rewrite Hreg in Hr. rewrite Hn.
      destruct (decide (name = n)) as [->|Hne].
      * rewrite lookup_insert_eq in Hr. injection Hr as <-. simpl.
        apply elem_of_union_l. by apply elem_of_singleton.
      * rewrite lookup_insert_ne in Hr by assumption.
        apply elem_of_union_r. by apply (IHr n).
  - destruct (unschedule_frame names st) as (Hreg & Hn & Hobjs).
    split.
    + intros a Ha. rewrite Hobjs. apply IHn. by rewrite <- Hn.
    + intros n rule Hr. rewrite Hn. apply (IHr n). by rewrite <- Hreg.
  - destruct (stop_notifiers_changes order st)
      as [(Hn & Hreg & Hlen & _) _].
    split.
    + intros a Ha. rewrite Hlen. apply IHn. by rewrite <- Hn.
    + intros n rule Hr. rewrite Hn. apply (IHr n). by rewrite <- Hreg.
Qed.

(* ===================================================================== *)
(** * on_stopping                                                         *)
(* ===================================================================== *)









Section OnStopping.
Variable env : Collaborators.

End OnStopping.

Lemma one_rule_reachable : reachable Examples.env Examples.one_rule.
Proof. apply reachable_schedule, reachable_init. Qed.




(** After [schedule("r", h, ["/a"])]: stopping stops the notifier, and
    with it goes the watch of [/a], the rule staying in the registry and
    a second stop raising; unscheduling removes the watch as well, and
    leaves the notifier running and the inotify instance open. *)
Example stop_and_unschedule_differ :
  (on_stopping Examples.one_rule).1 = inr tt
  ∧ status_of (on_stopping Examples.one_rule).2 0 = Some Stopped
  ∧ wmd (_wm (on_stopping Examples.one_rule).2) !! 1 = None
  ∧ fd_open (_wm (on_stopping Examples.one_rule).2) = false
  ∧ (rule_name <$> _name_to_rule (on_stopping Examples.one_rule).2 !! "r")
    = Some "r"
  ∧ (on_stopping (on_stopping Examples.one_rule).2).1
    = inl (OSError "[Errno 9] Bad file descriptor")
  ∧ status_of (unschedule [] Examples.one_rule).2 0 = Some Running
  ∧ wmd (_wm (unschedule [] Examples.one_rule).2) !! 1 = None
  ∧ fd_open (_wm (unschedule [] Examples.one_rule).2) = true.
Proof. vm_compute. repeat split. Qed.

(** With two rules, [on_stopping] raises at the second notifier, with
    both notifiers stopped and the instance closed; with a notifier that
    a failed [schedule] has left in the set, never started, it raises at
    that one. *)
Example on_stopping_raises :
  (on_stopping Cases.two_rules).1
    = inl (OSError "[Errno 9] Bad file descriptor")
  ∧ status_of (on_stopping Cases.two_rules).2 0 = Some Stopped
  ∧ status_of (on_stopping Cases.two_rules).2 1 = Some Stopped
  ∧ (on_stopping
       (schedule Examples.env "r" "h" (PyList [PyInt 5]) false
                 new_InotifyObserver).2).1
    = inl (RuntimeError "cannot join thread before it is started").
Proof. vm_compute. repeat split. Qed.

(** C4: after [schedule("r", h, ["/a"])], [unschedule("r")] leaves the
    rule in the registry. *)
Lemma unschedule_keeps_registry :
  ¬ unschedule_tears_down ["r"] Examples.one_rule.
Proof.
  intros [_ H].
  destruct (H "r" (mkRule "r" 0 {["/a" := 1]})) as (_ & _ & Hgone).
  - right. left.
  - reflexivity.
  - vm_compute in Hgone. discriminate.
Qed.

Lemma unschedule_removes_recorded_watches_witness :
  (unschedule ["r"] Examples.one_rule).1 = inr tt
  ∧ wmd (_wm (unschedule ["r"] Examples.one_rule).2) !! 1 = None
  ∧ (∃ n, (unschedule ["r"; "q"] Examples.one_rule).1 = inl (KeyError n)).
Proof.
  destruct (unschedule_removes_recorded_watches ["r"] Examples.one_rule)
    as (_ & _ & _ & _ & Hok).
  destruct Hok as [Hret Hwd].
  { intros n Hn. apply list_elem_of_singleton in Hn as ->.
    exists (mkRule "r" 0 {["/a" := 1]}). reflexivity. }
  destruct (unschedule_removes_recorded_watches ["r"; "q"] Examples.one_rule)
    as (_ & _ & _ & Hfail & _).
  destruct Hfail as (n & _ & _ & Hn).
  { exists "q". split; [right; left | reflexivity]. }
  split; [exact Hret|]. split; [|by exists n].
  apply (Hwd 1). exists "r", (mkRule "r" 0 {["/a" := 1]}), "/a".
  split; [right; left|]. split; reflexivity.
Defined.

(* ===================================================================== *)
(** * Scheduling a name again                                             *)
(* ===================================================================== *)

(** The descriptors a rule gets are those of one [add_watch] call, the
    one for the last path: each turn of the loop assigns them anew. *)
Lemma watch_paths_returns_last (env : Collaborators)
    (items : list PyValue) (recursive : bool) :
  ∀ (d : option (gmap string Z)) (st st' : InotifyObserver)
    (ds : gmap string Z),
    items ≠ [] →
    watch_paths env items recursive d st = (inr (Some ds), st') →
    ∃ s p wm,
      last items = Some (PyStr s)
      ∧ real_absolute_path env s = Some p
      ∧ ds = (add_watch env wm p recursive).2.
Proof.
  induction items as [|path items IH]; intros d st st' ds Hne Hrun;
    [contradiction|].
  cbn [watch_paths] in Hrun.
  destruct path as [|s|n|l|cls t it]; try discriminate.
  destruct (real_absolute_path env s) as [p|] eqn:Hp; [|discriminate].
  unfold bind, wm_add_watch in Hrun.
  destruct (add_watch env (_wm st) p recursive) as [wm' ds1] eqn:Hadd.
  destruct items as [|path' items].
  - cbn [watch_paths] in Hrun. injection Hrun as <- _.
    exists s, p, (_wm st). split; [reflexivity|]. split; [assumption|].
    by rewrite Hadd.
  - destruct (IH _ _ _ _ ltac:(discriminate) Hrun) as (s' & p' & wm & Hl & H).
    exists s', p', wm. split; [|exact H].
    rewrite <- Hl. reflexivity.
Qed.

Section Reschedule.
Variable env : Collaborators.

(** C7.  [schedule] returning for a name that is registered already:
    the registry entry is now the new rule, with a new, running
    notifier; the notifier of the prior rule is still in the notifier
    set, the same object in the same state as before the call; and
    every kernel watch there was is still there. *)
Theorem reschedule_overwrites_and_leaks (name : string)
    (event_handler : Handler) (paths : PyValue) (recursive : bool)
    (st : InotifyObserver) (old : _Rule) :
  reachable env st →
  _name_to_rule st !! name = Some old →
  (schedule env name event_handler paths recursive st).1 = inr tt →
  let st' := (schedule env name event_handler paths recursive st).2 in
  (∃ new,
      _name_to_rule st' !! name = Some new
      ∧ rule_notifier new ≠ rule_notifier old
      ∧ status_of st' (rule_notifier new) = Some Running)
  ∧ rule_notifier old ∈ _notifiers st'
  ∧ (∃ obj, notifier_objects st !! rule_notifier old = Some obj
            ∧ notifier_objects st' !! rule_notifier old = Some obj)
  ∧ (∀ wd, is_Some (wmd (_wm st) !! wd) →
           is_Some (wmd (_wm st') !! wd)).
Proof.
  intros Hreach Hold Hret st'. subst st'.
  destruct (reachable_inv env st Hreach) as [Hset Hrules].
  pose proof (Hrules name old Hold) as Hin.
  pose proof (Hset _ Hin) as Hlt.
  destruct (schedule_outcome env name event_handler paths recursive st)
    as [[_ E] | (_ & Hn & Hkeep & Hcase)].
  { rewrite E in Hret. discriminate. }
  destruct Hcase as [(e & He & _) | (d & _ & Hreg & Hobjs)].
  { rewrite He in Hret. discriminate. }
  split; [|split; [|split]].
  - exists (mkRule name (List.length (notifier_objects st)) d).
    split; [by rewrite Hreg, lookup_insert_eq|].
    split; [simpl; lia|].
    unfold status_of. rewrite Hobjs. simpl.
    rewrite lookup_app_r by lia. by rewrite Nat.sub_diag.
  - rewrite Hn. by apply elem_of_union_r.
  - destruct (lookup_lt_is_Some_2 (notifier_objects st) _ Hlt) as [obj Ho].
    exists obj. split; [exact Ho|].
    rewrite Hobjs. by apply lookup_app_l_Some.
  - exact Hkeep.
Qed.
End Reschedule.

Lemma reschedule_overwrites_and_leaks_witness :
  let st' := (schedule Examples.env "r" "h2" (PyList [PyStr "/b"]) false
                       Examples.one_rule).2 in
  (∃ new, _name_to_rule st' !! "r" = Some new ∧ rule_notifier new ≠ 0%nat
          ∧ status_of st' (rule_notifier new) = Some Running)
  ∧ 0%nat ∈ _notifiers st'.
Proof.
  destruct (reschedule_overwrites_and_leaks Examples.env "r" "h2"
              (PyList [PyStr "/b"]) false Examples.one_rule
              (mkRule "r" 0 {["/a" := 1]})
              one_rule_reachable eq_refl eq_refl)
    as (Hnew & Hin & _).
  split; [exact Hnew | exact Hin].
Defined.

(** The leak at the example: the first rule's notifier is running and its
    watch is in place, and the registry no longer leads to either. *)
Example reschedule_trace :
  let st' := (schedule Examples.env "r" "h2" (PyList [PyStr "/b"]) false
                       Examples.one_rule).2 in
  (rule_notifier <$> _name_to_rule st' !! "r") = Some 1%nat
  ∧ (map_to_list ∘ rule_descriptors <$> _name_to_rule st' !! "r")
    = Some [("/b", 2)]
  ∧ elements (_notifiers st') = [1%nat; 0%nat]
  ∧ status_of st' 0 = Some Running
  ∧ wmd (_wm st') !! 1 = Some "/a".
Proof. vm_compute. repeat split. Qed.

(* ===================================================================== *)
(** * More on the dispatcher                                              *)
(* ===================================================================== *)

Section DispatcherMore.
Variable env : Collaborators.

(** X1.  The dispatcher raises on one kind of notification only: an
    IN_MOVED_TO record without [src_pathname] (the move came from outside
    the watched tree), where reading the attribute is an AttributeError.
    Every other notification is processed to the end. *)
Theorem process_event_raises_iff (self : _ProcessEventDispatcher)
    (event : Event) (e : Exception) :
  process_event env self event = inl e
  ↔ e = AttributeError "src_pathname"
    ∧ maskname event = IN_MOVED_TO
    ∧ src_pathname event = None.
Proof.
  unfold process_event, process_IN_ATTRIB, process_IN_CLOSE_WRITE,
    process_IN_CREATE, process_IN_DELETE, process_IN_MOVED_TO,
    process_default.
  split.
  - destruct (maskname event); destruct (dir event);
      try discriminate;
      destruct (src_pathname event); try discriminate;
      intros [= <-]; repeat split.
  - intros (-> & -> & ->). reflexivity.
Qed.

(** X2.  A create, delete, write-close or attribute notification makes
    the dispatcher pass exactly one event to the handler: of the type
    that goes with the notification (Created, Deleted, Modified,
    Modified), at the absolute path of the notification, and for a
    directory exactly when the notification's [dir] flag is set. *)
Theorem plain_notification_dispatches_one (self : _ProcessEventDispatcher)
    (event : Event) :
  maskname event ≠ IN_MOVED_TO →
  maskname event ≠ IN_MOVED_FROM →
  ∃ e,
    process_event env self event = inr [e]
    ∧ event_type e
      = match maskname event with
        | IN_CREATE => EVENT_TYPE_CREATED
        | IN_DELETE => EVENT_TYPE_DELETED
        | _ => EVENT_TYPE_MODIFIED
        end
    ∧ event_src_path e = absolute_path env (pathname event)
    ∧ event_is_directory e = dir event.
Proof.
  intros Hto Hfrom.
  unfold process_event, process_IN_ATTRIB, process_IN_CLOSE_WRITE,
    process_IN_CREATE, process_IN_DELETE.
  destruct (maskname event); try contradiction;
    destruct (dir event); eexists; repeat split.
Qed.

(** X3.  The [recursive] flag of a dispatcher is read for one kind of
    notification only, the move of a directory inside the watched tree:
    on a notification that is not IN_MOVED_TO, or is not for a
    directory, or has no [src_pathname], two dispatchers bound to the
    same handler make the same calls of its [dispatch], whatever their
    flags. *)
Theorem dispatch_depends_on_recursive_dir_move_only
    (handler : Handler) (recursive1 recursive2 : bool) (event : Event) :
  maskname event ≠ IN_MOVED_TO
  ∨ dir event = false
  ∨ src_pathname event = None →
  process_event env (mkDispatcher handler recursive1) event
    = process_event env (mkDispatcher handler recursive2) event.
Proof.
  intros H. unfold process_event, process_IN_MOVED_TO.
  destruct (maskname event); try reflexivity.
  destruct (src_pathname event); [|reflexivity].
  destruct (dir event); [|reflexivity].
  destruct H as [H|[H|H]]; [contradiction | discriminate | discriminate].
Qed.
End DispatcherMore.

Lemma plain_notification_dispatches_one_witness :
  ∃ e, process_event Examples.env Examples.recursive_dispatcher Cases.created
       = inr [e]
       ∧ event_type e = EVENT_TYPE_CREATED
       ∧ event_is_directory e = true.
Proof.
  destruct (plain_notification_dispatches_one Examples.env
              Examples.recursive_dispatcher Cases.created)
    as (e & H1 & H2 & _ & H4); [discriminate | discriminate |].
  exists e. split; [exact H1|]. split; [exact H2 | exact H4].
Defined.

Lemma dispatch_depends_on_recursive_dir_move_only_witness :
  process_event Examples.env (mkDispatcher "h" true) Examples.file_moved
    = process_event Examples.env (mkDispatcher "h" false) Examples.file_moved.
Proof.
  apply (dispatch_depends_on_recursive_dir_move_only Examples.env
           "h" true false Examples.file_moved).
  right. left. reflexivity.
Defined.

(** A file moved in from outside the watched tree: the record has no
    [src_pathname], and nothing reaches the handler. *)
Example moved_in_raises :
  process_event Examples.env Examples.flat_dispatcher Cases.moved_in
    = inl (AttributeError "src_pathname").
Proof. reflexivity. Qed.

(* ===================================================================== *)
(** * check_kwargs and my_init                                            *)
(* ===================================================================== *)

(** X4.  [check_kwargs] returns when the argument is among the keyword
    arguments.  When it is missing, what is raised is not the ValueError
    of the source text: its message has two [%s] and is given one
    argument, so building it raises TypeError first. *)
Theorem check_kwargs_outcome (kwargs : Kwargs) (arg method : string) :
  check_kwargs kwargs arg method
    = if kwargs_contains kwargs arg
      then inr tt
      else inl (Raised
                  (TypeError "not enough arguments for format string")).
Proof.
  unfold check_kwargs. destruct (kwargs_contains kwargs arg); reflexivity.
Qed.

(** X5.  [my_init] returns exactly when both [event_handler] and
    [recursive] are given, and the dispatcher it leaves has the two
    values as its fields; when either is missing it raises the TypeError
    of [check_kwargs]. *)
Theorem my_init_outcome (kwargs : Kwargs) :
  (∀ self,
      my_init kwargs = inr self
      ↔ kw_event_handler kwargs = Some (event_handler self)
        ∧ kw_recursive kwargs = Some (is_recursive self))
  ∧ (kw_event_handler kwargs = None ∨ kw_recursive kwargs = None →
     my_init kwargs
       = inl (Raised (TypeError "not enough arguments for format string"))).
Proof.
  destruct kwargs as [[h|] [r|] other]; split;
    try (intros [?|?]; try discriminate; reflexivity).
  all: intros [h' r']; cbn; split;
    [intros [= <- <-] || discriminate; by split
    | intros [? ?]; simplify_eq/=; reflexivity || discriminate].
Qed.

Lemma my_init_outcome_witness :
  my_init Cases.both_given = inr (mkDispatcher "h" true)
  ∧ my_init Cases.handler_only
    = inl (Raised (TypeError "not enough arguments for format string")).
Proof.
  destruct (my_init_outcome Cases.both_given) as [Hiff _].
  destruct (my_init_outcome Cases.handler_only) as [_ Hfail].
  split.
  - apply (Hiff (mkDispatcher "h" true)). split; reflexivity.
  - apply Hfail. right. reflexivity.
Defined.

(* ===================================================================== *)
(** * More on schedule                                                    *)
(* ===================================================================== *)

Section ScheduleMore.
Variable env : Collaborators.

(** [schedule] once [paths] has passed the first test: the loop over the
    items runs on the observer that has the new notifier, and the rule
    is stored and the notifier started only when the loop returns. *)
Lemma schedule_unfold (name : string) (event_handler : Handler)
    (paths : PyValue) (recursive : bool) (st : InotifyObserver)
    (items : list PyValue) :
  truthy paths = true →
  loop_items paths = Some items →
  schedule env name event_handler paths recursive st
    = match watch_paths env items recursive None
              (with_new_notifier (mkDispatcher event_handler recursive) st)
      with
      | (inl e, st2) => (inl e, st2)
      | (inr None, st2) => (inl (UnboundLocalError "descriptors"), st2)
      | (inr (Some d), st2) =>
          (inr tt,
           {| _wm := _wm st2;
              _notifiers := _notifiers st2;
              _name_to_rule :=
                <[name := mkRule name (List.length (notifier_objects st)) d]>
                  (_name_to_rule st2);
              notifier_objects :=
                alter (with_status Running)
                      (List.length (notifier_objects st))
                      (notifier_objects st2) |})
      end.
Proof.
  intros Ht Hitems.
  destruct paths as [|s|n|l|cls t [l|]]; try discriminate;
    injection Hitems as <-; unfold schedule; rewrite Ht;
    cbn [negb is_basestring iterate]; unfold bind at 1 2 3;
    unfold new_ThreadedNotifier, notifiers_add, ret; cbn [fst snd];
    fold (with_new_notifier (mkDispatcher event_handler recursive) st);
    unfold bind;
    destruct (watch_paths env _ recursive None _) as [[e|[d|]] st2];
    reflexivity.
Qed.

(** [schedule] of a value that is true and cannot be iterated over. *)
Lemma schedule_not_iterable (name : string) (event_handler : Handler)
    (paths : PyValue) (recursive : bool) (st : InotifyObserver) :
  truthy paths = true →
  loop_items paths = None →
  schedule env name event_handler paths recursive st
    = (inl (TypeError ("'" +:+ type_name paths
                       +:+ "' object is not iterable")),
       with_new_notifier (mkDispatcher event_handler recursive) st).
Proof.
  intros Ht Hitems.
  destruct paths as [|s|n|l|cls t [l|]]; try discriminate;
    unfold schedule; rewrite Ht; reflexivity.
Qed.

(** The loop returns exactly when every item is a string that
    resolves. *)
Lemma watch_paths_returns_iff (items : list PyValue) (recursive : bool) :
  ∀ (d : option (gmap string Z)) (st : InotifyObserver),
    (∃ r, (watch_paths env items recursive d st).1 = inr r)
    ↔ Forall (λ v, ∃ s, v = PyStr s ∧ is_Some (real_absolute_path env s))
             items.
Proof.
  induction items as [|path items IH]; intros d st; cbn [watch_paths].
  - split; [constructor | by exists d].
  - destruct path as [|s|n|l|cls t it].
    1,3,4,5: split; [intros [r Hr]; discriminate
                    | intros H; inversion H as [|? ? (s & Hs & _) _];
                      discriminate].
    destruct (real_absolute_path env s) as [p|] eqn:Hp.
    + unfold bind, wm_add_watch.
      destruct (add_watch env (_wm st) p recursive) as [wm' ds].
      rewrite IH. split.
      * intros H. constructor; [|exact H]. exists s. by rewrite Hp.
      * intros H. by inversion H.
    + split; [intros [r Hr]; discriminate|].
      intros H. inversion H as [|? ? (s' & Heq & Hs) _].
      injection Heq as ->. rewrite Hp in Hs. by destruct Hs.
Qed.

(** After at least one turn the local variable is bound. *)
Lemma watch_paths_result (items : list PyValue) (recursive : bool) :
  ∀ (d r : option (gmap string Z)) (st : InotifyObserver),
    (watch_paths env items recursive d st).1 = inr r →
    (items = [] ∧ r = d) ∨ is_Some r.
Proof.
  induction items as [|path items IH]; intros d r st; cbn [watch_paths].
  - intros [= <-]. by left.
  - destruct path as [|s|n|l|cls t it]; try discriminate.
    destruct (real_absolute_path env s) as [p|]; [|discriminate].
    unfold bind, wm_add_watch.
    destruct (add_watch env (_wm st) p recursive) as [wm' ds].
    intros H. right. destruct (IH _ _ _ H) as [[_ ->]|Hr]; [eauto | exact Hr].
Qed.

Lemma all_strings_iff (items : list PyValue) :
  Forall (λ v, ∃ s, v = PyStr s ∧ is_Some (real_absolute_path env s)) items
  ↔ ∃ ss, mapM as_string items = Some ss
          ∧ Forall (λ s, is_Some (real_absolute_path env s)) ss.
Proof.
  split.
  - induction 1 as [|v items (s & -> & Hs) _ (ss & Hss & Hall)].
    + exists []. split; [reflexivity | constructor].
    + exists (s :: ss). split; [|by constructor].
      apply mapM_Some. constructor; [reflexivity|]. by apply mapM_Some.
  - intros (ss & Hss & Hall). apply mapM_Some in Hss.
    induction Hss as [|v s items ss Hv _ IH]; [constructor|].
    inversion Hall as [|? ? Hs Hrest]; subst.
    constructor; [|by apply IH].
    destruct v; try discriminate. injection Hv as ->. by exists s.
Qed.

Lemma as_strings_items (items : list PyValue) (ss : list string) :
  mapM as_string items = Some ss → items = PyStr <$> ss.
Proof.
  intros H. apply mapM_Some in H.
  induction H as [|v s items ss Hv _ IH]; [reflexivity|].
  destruct v; try discriminate. injection Hv as ->.
  cbn [fmap list_fmap]. by rewrite IH.
Qed.

(** X6.  [schedule] returns exactly when [paths] is true and is a string,
    or a list or another iterable that yields strings only, and at least
    one, and each of these strings resolves to a real path; in every
    other case it raises. *)
Theorem schedule_returns_iff (name : string) (event_handler : Handler)
    (paths : PyValue) (recursive : bool) (st : InotifyObserver) :
  (schedule env name event_handler paths recursive st).1 = inr tt
  ↔ truthy paths = true
    ∧ ∃ ss, path_strings paths = Some ss
            ∧ ss ≠ []
            ∧ Forall (λ s, is_Some (real_absolute_path env s)) ss.
Proof.
  destruct (truthy paths) eqn:Ht.
  2: { rewrite schedule_false_paths_unchanged by assumption.
       split; [discriminate | intros [? _]; discriminate]. }
  unfold path_strings.
  destruct (loop_items paths) as [items|] eqn:Hitems.
  2: { rewrite schedule_not_iterable by assumption.
       split; [discriminate | intros (_ & ss & ? & _); discriminate]. }
  rewrite (schedule_unfold name event_handler paths recursive st items
             Ht Hitems).
  cbn [mbind option_bind].
  pose proof (watch_paths_returns_iff items recursive None
                (with_new_notifier (mkDispatcher event_handler recursive)
                                   st)) as Hiff.
  rewrite all_strings_iff in Hiff.
  pose proof (watch_paths_result items recursive None) as Hres.
  specialize (λ r, Hres r
                (with_new_notifier (mkDispatcher event_handler recursive)
                                   st)).
  assert (Hnil : items = [] →
            (watch_paths env items recursive None
               (with_new_notifier (mkDispatcher event_handler recursive)
                                  st)).1 = inr None)
    by (by intros ->).
  destruct (watch_paths env items recursive None _) as [[e|[d|]] st2];
    cbn [fst] in *.
  - split; [discriminate|]. intros (_ & ss & Hss & _ & Hall).
    destruct (proj2 Hiff) as [r Hr]; [by exists ss | discriminate].
  - split; [|reflexivity]. intros _. split; [reflexivity|].
    destruct (proj1 Hiff) as (ss & Hss & Hall); [by exists (Some d)|].
    exists ss. split; [exact Hss|]. split; [|exact Hall].
    intros ->. apply as_strings_items in Hss.
    specialize (Hnil Hss). discriminate.
  - split; [discriminate|]. intros (_ & ss & Hss & Hne & _). exfalso.
    destruct (Hres None eq_refl) as [[-> _]|[? ?]]; [|discriminate].
    cbn in Hss. injection Hss as <-. by apply Hne.
Qed.
End ScheduleMore.

Section ScheduleOutcomes.
Variable env : Collaborators.

(** What the loop over the paths can raise. *)
Lemma watch_paths_raises (items : list PyValue) (recursive : bool) :
  ∀ (d : option (gmap string Z)) (st : InotifyObserver) (e : Exception),
    (watch_paths env items recursive d st).1 = inl e →
    (∃ v, v ∈ items ∧ is_basestring v = false
          ∧ e = TypeError ("Path must be string, not '"
                           +:+ type_name v +:+ "'."))
    ∨ (∃ s, PyStr s ∈ items ∧ real_absolute_path env s = None
            ∧ e = OSError s).
Proof.
  induction items as [|path items IH]; intros d st e; cbn [watch_paths];
    [discriminate|].
  destruct path as [|s|n|l|cls t it].
  1,3,4,5: intros [= <-]; left; eexists; split; [left|]; by split.
  destruct (real_absolute_path env s) as [p|] eqn:Hp.
  - unfold bind, wm_add_watch.
    destruct (add_watch env (_wm st) p recursive) as [wm' ds].
    intros H. destruct (IH _ _ _ H) as [(v & Hv & Hrest)|(s' & Hs' & Hrest)].
    + left. exists v. split; [by right | exact Hrest].
    + right. exists s'. split; [by right | exact Hrest].
  - intros [= <-]. right. exists s. split; [left|]. by split.
Qed.

(** X7.  [schedule] raises ValueError exactly when [paths] is false
    (None, the empty string, zero, an empty list, an object that is
    false), and it does so before it has touched anything: the observer
    is as it was.  When [paths] is true, an error is a TypeError, for
    [paths] or an item that is not a string, or the failure to resolve
    one of the paths, or else the UnboundLocalError of line 150, which
    is raised exactly when iterating over [paths] yields no item (an
    iterator that is exhausted, say): the loop has not assigned
    [descriptors] then. *)
Theorem schedule_errors (name : string) (event_handler : Handler)
    (paths : PyValue) (recursive : bool) (st : InotifyObserver) :
  (truthy paths = false →
     schedule env name event_handler paths recursive st
       = (inl (ValueError "Please specify a few paths."), st))
  ∧ (∀ e,
       (schedule env name event_handler paths recursive st).1 = inl e →
       truthy paths = true →
       (∃ msg, e = TypeError msg)
       ∨ (∃ s, real_absolute_path env s = None ∧ e = OSError s)
       ∨ e = UnboundLocalError "descriptors")
  ∧ (truthy paths = true →
       ((schedule env name event_handler paths recursive st).1
          = inl (UnboundLocalError "descriptors")
        ↔ loop_items paths = Some [])).
Proof.
  split; [apply schedule_false_paths_unchanged|].
  split.
  - intros e He Ht.
    destruct (loop_items paths) as [items|] eqn:Hitems.
    2: { rewrite schedule_not_iterable in He by assumption.
         injection He as <-. left. eauto. }
    rewrite (schedule_unfold env name event_handler paths recursive st
               items Ht Hitems) in He.
    pose proof (watch_paths_raises items recursive None
                  (with_new_notifier (mkDispatcher event_handler recursive)
                                     st)) as Hraise.
    destruct (watch_paths env items recursive None _) as [[e'|[d|]] st2];
      cbn [fst] in *.
    + injection He as <-.
      destruct (Hraise e' eq_refl) as [(v & _ & _ & ->)|(s & _ & Hs & ->)].
      * left. eauto.
      * right. left. eauto.
    + discriminate.
    + injection He as <-. right. by right.
  - intros Ht.
    destruct (loop_items paths) as [items|] eqn:Hitems.
    2: { rewrite schedule_not_iterable by assumption.
         split; discriminate. }
    rewrite (schedule_unfold env name event_handler paths recursive st
               items Ht Hitems).
    pose proof (watch_paths_raises items recursive None
                  (with_new_notifier (mkDispatcher event_handler recursive)
                                     st)) as Hraise.
    pose proof (watch_paths_result env items recursive None) as Hres.
    specialize (λ r, Hres r
                  (with_new_notifier (mkDispatcher event_handler recursive)
                                     st)).
    destruct items as [|item items]; [split; reflexivity|].
    destruct (watch_paths env (item :: items) recursive None _)
      as [[e'|[d|]] st2]; cbn [fst] in *.
    + split; [|discriminate]. intros [= ->].
      destruct (Hraise _ eq_refl) as [(v & _ & _ & ?)|(s & _ & _ & ?)];
        discriminate.
    + split; discriminate.
    + destruct (Hres None eq_refl) as [[? _]|[? ?]]; discriminate.
Qed.

(** X8.  A call of [schedule] that raises registers nothing and starts
    nothing: the registry is as it was, every notifier there was is the
    same object in the same state, and no notifier is running that was
    not running before. *)
Theorem schedule_raise_registers_nothing (name : string)
    (event_handler : Handler) (paths : PyValue) (recursive : bool)
    (st : InotifyObserver) (e : Exception) :
  (schedule env name event_handler paths recursive st).1 = inl e →
  let st' := (schedule env name event_handler paths recursive st).2 in
  _name_to_rule st' = _name_to_rule st
  ∧ (∀ a obj, notifier_objects st !! a = Some obj →
              notifier_objects st' !! a = Some obj)
  ∧ (∀ a, status_of st' a = Some Running → status_of st a = Some Running).
Proof.
  intros He st'. subst st'.
  destruct (schedule_outcome env name event_handler paths recursive st)
    as [[_ ->] | (_ & _ & _ & [(e' & _ & Hreg & Hobjs) | (d & Hok & _)])].
  - repeat split; auto.
  - split; [exact Hreg|]. split.
    + intros a obj Ha. rewrite Hobjs. by apply lookup_app_l_Some.
    + intros a. unfold status_of. rewrite Hobjs.
      destruct (decide (a < List.length (notifier_objects st))%nat)
        as [Hlt|Hge].
      * by rewrite lookup_app_l.
      * rewrite lookup_app_r by lia.
        destruct (a - List.length (notifier_objects st))%nat as [|k];
          [discriminate|].
        destruct k; discriminate.
  - rewrite Hok in He. discriminate.
Qed.

(** X9.  A call of [schedule] that returns has stored, under the given
    name, a rule of that name whose notifier is a new object, bound to
    the given handler and flag, running, and a member of the notifier
    set; the entries under all other names are as they were. *)
Theorem schedule_return_registers (name : string)
    (event_handler : Handler) (paths : PyValue) (recursive : bool)
    (st : InotifyObserver) :
  (schedule env name event_handler paths recursive st).1 = inr tt →
  let st' := (schedule env name event_handler paths recursive st).2 in
  (∃ rule,
      _name_to_rule st' !! name = Some rule
      ∧ rule_name rule = name
      ∧ notifier_objects st !! rule_notifier rule = None
      ∧ notifier_objects st' !! rule_notifier rule
        = Some (mkNotifier (mkDispatcher event_handler recursive) Running)
      ∧ rule_notifier rule ∈ _notifiers st')
  ∧ (∀ other, other ≠ name →
              _name_to_rule st' !! other = _name_to_rule st !! other).
Proof.
  intros Hret st'. subst st'.
  destruct (schedule_outcome env name event_handler paths recursive st)
    as [[_ E] | (_ & Hn & _ & [(e & He & _) | (d & _ & Hreg & Hobjs)])].
  - rewrite E in Hret. discriminate.
  - rewrite He in Hret. discriminate.
  - split.
    + exists (mkRule name (List.length (notifier_objects st)) d).
      split; [by rewrite Hreg, lookup_insert_eq|].
      split; [reflexivity|]. cbn [rule_notifier].
      split; [by apply lookup_ge_None_2|].
      split.
      * rewrite Hobjs, lookup_app_r by lia. by rewrite Nat.sub_diag.
      * rewrite Hn. apply elem_of_union_l. by apply elem_of_singleton.
    + intros other Hne. rewrite Hreg. by apply lookup_insert_ne.
Qed.
End ScheduleOutcomes.

Lemma schedule_errors_witness :
  schedule Examples.env "r" "h" (PyList []) false Examples.one_rule
    = (inl (ValueError "Please specify a few paths."), Examples.one_rule)
  ∧ (schedule Examples.env "r" "h" (PyObject "listiterator" true (Some []))
              false Examples.one_rule).1
    = inl (UnboundLocalError "descriptors").
Proof.
  destruct (schedule_errors Examples.env "r" "h" (PyList []) false
              Examples.one_rule) as [Hfalse _].
  destruct (schedule_errors Examples.env "r" "h"
              (PyObject "listiterator" true (Some [])) false
              Examples.one_rule) as (_ & _ & Hunbound).
  split.
  - apply Hfalse. reflexivity.
  - apply Hunbound; reflexivity.
Defined.

Lemma schedule_raise_registers_nothing_witness :
  _name_to_rule
    (schedule Examples.env "q" "h" (PyList [PyStr "/a"; PyNone]) false
              Examples.one_rule).2
    = _name_to_rule Examples.one_rule.
Proof.
  destruct (schedule_raise_registers_nothing Examples.env "q" "h"
              (PyList [PyStr "/a"; PyNone]) false Examples.one_rule
              (TypeError "Path must be string, not 'NoneType'.") eq_refl)
    as [H _].
  exact H.
Defined.

Lemma schedule_return_registers_witness :
  ∃ rule,
    _name_to_rule
      (schedule Examples.env "q" "h" (PyStr "/b") true Examples.one_rule).2
      !! "q" = Some rule
    ∧ rule_name rule = "q".
Proof.
  destruct (schedule_return_registers Examples.env "q" "h" (PyStr "/b") true
              Examples.one_rule eq_refl) as [(rule & H1 & H2 & _) _].
  exists rule. split; [exact H1 | exact H2].
Defined.

(* ===================================================================== *)
(** * What no method undoes                                               *)
(* ===================================================================== *)

(** X10.  No call of [schedule], [unschedule] or [on_stopping], whether
    it returns or raises, removes a name from the registry, a notifier
    from the notifier set or a notifier object; none rebinds a notifier
    to another dispatcher; and none starts a stopped notifier again. *)
Theorem nothing_is_ever_removed (env : Collaborators)
    (st st' : InotifyObserver) :
  method_call env st st' →
  (∀ name, is_Some (_name_to_rule st !! name) →
           is_Some (_name_to_rule st' !! name))
  ∧ _notifiers st ⊆ _notifiers st'
  ∧ (∀ a obj, notifier_objects st !! a = Some obj →
       ∃ obj', notifier_objects st' !! a = Some obj'
               ∧ notifier_dispatcher obj' = notifier_dispatcher obj)
  ∧ (∀ a, status_of st a = Some Stopped → status_of st' a = Some Stopped).
Proof.
  intros [st0 name h paths rec | st0 names | st0 order _].
  - destruct (schedule_outcome env name h paths rec st0)
      as [[_ ->] | (_ & Hn & _ & Hcase)].
    { repeat split; eauto. }
    assert (Hobjs : ∃ s,
      notifier_objects (schedule env name h paths rec st0).2
        = notifier_objects st0 ++ [mkNotifier (mkDispatcher h rec) s]).
    { destruct Hcase as [(e & _ & _ & H) | (d & _ & _ & H)]; eauto. }
    destruct Hobjs as [s Hobjs].
    split; [|split; [|split]].
    + intros n Hsome.
      destruct Hcase as [(e & _ & -> & _) | (d & _ & -> & _)]; [exact Hsome|].
      destruct (decide (name = n)) as [->|Hne].
      * rewrite lookup_insert_eq. eauto.
      * by rewrite lookup_insert_ne.
    + rewrite Hn. apply union_subseteq_r.
    + intros a obj Ha. exists obj. split; [|reflexivity].
      rewrite Hobjs. by apply lookup_app_l_Some.
    + intros a. unfold status_of. rewrite Hobjs.
      destruct (notifier_objects st0 !! a) as [obj|] eqn:Ha; [|discriminate].
      by rewrite (lookup_app_l_Some _ _ _ _ Ha).
  - destruct (unschedule_frame names st0) as (Hreg & Hn & Hobjs).
    unfold status_of. rewrite Hreg, Hn, Hobjs. repeat split; eauto.
  - destruct (stop_notifiers_changes order st0)
      as [(Hn & Hreg & _ & Hobjs & _) _].
    rewrite Hreg, Hn. split; [auto|]. split; [reflexivity|]. split.
    + intros a obj Ha. destruct (Hobjs a obj Ha) as (obj' & H1 & H2 & _).
      by exists obj'.
    + intros a. unfold status_of.
      destruct (notifier_objects st0 !! a) as [obj|] eqn:Ha;
        [|discriminate].
      destruct (Hobjs a obj Ha) as (obj' & -> & _ & [Hs|[_ Hs]]);
        cbn [fmap option_fmap option_map] in *; congruence.
Qed.

Lemma nothing_is_ever_removed_witness :
  is_Some (_name_to_rule (unschedule ["r"] Examples.one_rule).2 !! "r").
Proof.
  destruct (nothing_is_ever_removed Examples.env Examples.one_rule
              (unschedule ["r"] Examples.one_rule).2
              (call_unschedule Examples.env Examples.one_rule ["r"]))
    as [H _].
  apply H. exists (mkRule "r" 0 {["/a" := 1]}). reflexivity.
Defined.

(* ===================================================================== *)
(** * More on unschedule                                                  *)
(* ===================================================================== *)

Lemma for_each_app {A} (body : A → M unit) (l1 l2 : list A) :
  ∀ st : InotifyObserver,
    for_each (l1 ++ l2) body st
      = match for_each l1 body st with
        | (inl e, st1) => (inl e, st1)
        | (inr _, st1) => for_each l2 body st1
        end.
Proof.
  induction l1 as [|x l1 IH]; intros st; [reflexivity|].
  cbn [for_each app]. unfold bind.
  destruct (body x st) as [[e|[]] st1]; [reflexivity | apply IH].
Qed.

(** X11.  [unschedule] with names works through them in order and stops
    at the first one that is not in the registry: it raises KeyError for
    that name, and the watches recorded in the rules named before it are
    gone by then, and only these. *)
Theorem unschedule_stops_at_missing_name (pre post : list string)
    (n : string) (st : InotifyObserver) :
  (∀ m, m ∈ pre → is_Some (_name_to_rule st !! m)) →
  _name_to_rule st !! n = None →
  (unschedule (pre ++ n :: post) st).1 = inl (KeyError n)
  ∧ ∀ wd,
      ((∃ m rule path,
           m ∈ pre ∧ _name_to_rule st !! m = Some rule
           ∧ rule_descriptors rule !! path = Some wd) →
       wmd (_wm (unschedule (pre ++ n :: post) st).2) !! wd = None)
      ∧ (¬ (∃ m rule path,
               m ∈ pre ∧ _name_to_rule st !! m = Some rule
               ∧ rule_descriptors rule !! path = Some wd) →
         wmd (_wm (unschedule (pre ++ n :: post) st).2) !! wd
           = wmd (_wm st) !! wd).
Proof.
  intros Hpre Hn.
  assert (E : unschedule (pre ++ n :: post) st
              = for_each (pre ++ n :: post) unschedule_name st)
    by (destruct pre; reflexivity).
  rewrite E, for_each_app. clear E.
  destruct (all_found_rules _ _ Hpre) as [rules Hrules].
  rewrite (for_each_named_found pre rules st Hrules).
  destruct (for_each_rm_watch (λ r, values (rule_descriptors r)) rules st)
    as (H1 & _ & Hreg & _ & H5).
  destruct (for_each rules _ st) as [[e|[]] st1]; [discriminate|].
  cbn [fst snd] in *.
  assert (Estop : for_each (n :: post) unschedule_name st1
                  = (inl (KeyError n), st1)).
  { cbn [for_each]. unfold bind, unschedule_name, name_to_rule_get, bind.
    by rewrite Hreg, Hn. }
  rewrite Estop. cbn [fst snd]. split; [reflexivity|].
  intros wd.
  assert (Eq : (∃ m rule path,
                   m ∈ pre ∧ _name_to_rule st !! m = Some rule
                   ∧ rule_descriptors rule !! path = Some wd)
               ↔ ∃ r, r ∈ rules ∧ wd ∈ values (rule_descriptors r)).
  { split.
    - intros (m & rule & path & Hm & Hr & Hp). exists rule. split.
      + apply (Forall2_elem_of_r _ _ _ _ Hrules). by exists m.
      + apply elem_of_values. by exists path.
    - intros (r & Hin & Hwd).
      apply (Forall2_elem_of_r _ _ _ _ Hrules) in Hin as (m & Hm & Hr).
      apply elem_of_values in Hwd as [path Hp].
      by exists m, r, path. }
  destruct (H5 wd) as [Hrm Hkeep]. split.
  - intros H. apply Hrm, Eq, H.
  - intros H. apply Hkeep. intros H'. apply H, Eq, H'.
Qed.

Lemma unschedule_stops_at_missing_name_witness :
  (unschedule (["r"] ++ "q" :: ["r"]) Examples.one_rule).1
    = inl (KeyError "q")
  ∧ wmd (_wm (unschedule (["r"] ++ "q" :: ["r"]) Examples.one_rule).2) !! 1
    = None.
Proof.
  destruct (unschedule_stops_at_missing_name ["r"] ["r"] "q"
              Examples.one_rule) as [Herr Hwd].
  - intros m Hm. apply list_elem_of_singleton in Hm as ->.
    exists (mkRule "r" 0 {["/a" := 1]}). reflexivity.
  - reflexivity.
  - split; [exact Herr|]. apply (Hwd 1).
    exists "r", (mkRule "r" 0 {["/a" := 1]}), "/a".
    split; [left|]. split; reflexivity.
Defined.

Lemma rm_watch_rm_watch (wm : WatchManager) (a b : list Z) :
  rm_watch (rm_watch wm a) b = rm_watch wm (b ++ a).
Proof. unfold rm_watch. cbn [wmd next_wd]. by rewrite foldr_app. Qed.

Lemma rm_watch_nil (wm : WatchManager) : rm_watch wm [] = wm.
Proof. by destruct wm. Qed.

Lemma rm_watch_twice (wm : WatchManager) (wds : list Z) :
  rm_watch (rm_watch wm wds) wds = rm_watch wm wds.
Proof.
  unfold rm_watch. cbn [wmd next_wd]. f_equal.
  apply map_eq. intros k. rewrite !lookup_foldr_delete.
  destruct (decide (k ∈ wds)); reflexivity.
Qed.

(** The observer with some watches removed. *)
Lemma for_each_rm_shape {A} (f : A → list Z) (l : list A) :
  ∃ wds, ∀ st : InotifyObserver,
    for_each l (λ x, wm_rm_watch (f x)) st
      = (inr tt,
         {| _wm := rm_watch (_wm st) wds;
            _notifiers := _notifiers st;
            _name_to_rule := _name_to_rule st;
            notifier_objects := notifier_objects st |}).
Proof.
  induction l as [|x l [wds IH]].
  - exists []. intros st. rewrite rm_watch_nil. by destruct st.
  - exists (wds ++ f x). intros st. cbn [for_each]. unfold bind.
    cbn [wm_rm_watch]. unfold wm_rm_watch at 1. rewrite IH.
    cbn [_wm _notifiers _name_to_rule notifier_objects].
    by rewrite rm_watch_rm_watch.
Qed.

Lemma for_each_named_shape (reg : gmap string _Rule) (names : list string) :
  ∃ r wds, ∀ st : InotifyObserver,
    _name_to_rule st = reg →
    for_each names unschedule_name st
      = (r,
         {| _wm := rm_watch (_wm st) wds;
            _notifiers := _notifiers st;
            _name_to_rule := _name_to_rule st;
            notifier_objects := notifier_objects st |}).
Proof.
  induction names as [|n names (r & wds & IH)].
  - exists (inr tt), []. intros st _. rewrite rm_watch_nil. by destruct st.
  - destruct (reg !! n) as [rule|] eqn:Hn.
    + exists r, (wds ++ values (rule_descriptors rule)). intros st Hreg.
      cbn [for_each].
      unfold bind, unschedule_name at 1, name_to_rule_get, bind.
      rewrite Hreg, Hn. unfold wm_rm_watch at 1. rewrite IH by exact Hreg.
      cbn [_wm _notifiers _name_to_rule notifier_objects].
      by rewrite rm_watch_rm_watch, Hreg.
    + exists (inl (KeyError n)), []. intros st Hreg.
      cbn [for_each].
      unfold bind, unschedule_name at 1, name_to_rule_get, bind.
      rewrite Hreg, Hn, rm_watch_nil. rewrite <- Hreg. by destruct st.
Qed.

(** What [unschedule] does is settled by the names and the registry:
    the outcome, and the watches that go. *)
Lemma unschedule_shape (reg : gmap string _Rule) (names : list string) :
  ∃ r wds, ∀ st : InotifyObserver,
    _name_to_rule st = reg →
    unschedule names st
      = (r,
         {| _wm := rm_watch (_wm st) wds;
            _notifiers := _notifiers st;
            _name_to_rule := _name_to_rule st;
            notifier_objects := notifier_objects st |}).
Proof.
  destruct names as [|n names].
  - destruct (for_each_rm_shape
                (λ item : string * _Rule, values (rule_descriptors item.2))
                (map_to_list reg)) as [wds H].
    exists (inr tt), wds. intros st <-.
    unfold unschedule, bind, get_state. apply H.
  - apply (for_each_named_shape reg (n :: names)).
Qed.

(** X12.  [unschedule] twice in succession with the same names is
    [unschedule] once: the second call ends the way the first did, by
    returning or by the same KeyError, and leaves the observer as the
    first call left it. *)
Theorem unschedule_twice (names : list string) (st : InotifyObserver) :
  unschedule names (unschedule names st).2 = unschedule names st.
Proof.
  destruct (unschedule_shape (_name_to_rule st) names) as (r & wds & H).
  rewrite (H st eq_refl). cbn [snd]. rewrite H by reflexivity.
  cbn [_wm _notifiers _name_to_rule notifier_objects].
  by rewrite rm_watch_twice.
Qed.

(* ===================================================================== *)
(** * More invariants of the observer                                     *)
(* ===================================================================== *)

Lemma status_of_app_l (st st' : InotifyObserver) (x : ThreadedNotifier)
    (a : nat) :
  notifier_objects st' = notifier_objects st ++ [x] →
  (a < List.length (notifier_objects st))%nat →
  status_of st' a = status_of st a.
Proof. intros E Ha. unfold status_of. by rewrite E, lookup_app_l. Qed.

Lemma reachable_inv_strong (env : Collaborators) (st : InotifyObserver) :
  reachable env st →
  (∀ a, a ∈ _notifiers st ↔ (a < List.length (notifier_objects st))%nat)
  ∧ (∀ name rule, _name_to_rule st !! name = Some rule →
       rule_name rule = name
       ∧ (status_of st (rule_notifier rule) = Some Running
          ∨ status_of st (rule_notifier rule) = Some Stopped))
  ∧ (∀ n1 n2 r1 r2,
       _name_to_rule st !! n1 = Some r1 →
       _name_to_rule st !! n2 = Some r2 →
       rule_notifier r1 = rule_notifier r2 → n1 = n2).
Proof.
  induction 1 as [|st name h paths rec Hreach (I1 & I2 & I3)
                  |st names Hreach (I1 & I2 & I3)
                  |st order Hreach (I1 & I2 & I3) _].
  - split; [|split].
    + intros a. change (a ∈ (∅ : gset nat) ↔ (a < 0)%nat).
      rewrite elem_of_empty. lia.
    + intros name rule Hr.
      change ((∅ : gmap string _Rule) !! name = Some rule) in Hr.
      by rewrite lookup_empty in Hr.
    + intros n1 n2 r1 r2 Hr.
      change ((∅ : gmap string _Rule) !! n1 = Some r1) in Hr.
      by rewrite lookup_empty in Hr.
  - destruct (reachable_inv env st Hreach) as [_ Hin].
    assert (Hlt : ∀ n r,
      _name_to_rule st !! n = Some r →
      (rule_notifier r < List.length (notifier_objects st))%nat).
    { intros n r Hr. apply I1. by apply (Hin n). }
    destruct (schedule_outcome env name h paths rec st)
      as [[_ E] | (_ & Hn & _ & Hcase)].
    { rewrite E. cbn [snd]. split; [exact I1|]. split; [exact I2 | exact I3]. }
    assert (J1 : ∀ s a,
      notifier_objects (schedule env name h paths rec st).2
        = notifier_objects st ++ [mkNotifier (mkDispatcher h rec) s] →
      a ∈ _notifiers (schedule env name h paths rec st).2
      ↔ (a < List.length
               (notifier_objects (schedule env name h paths rec st).2))%nat).
    { intros s a ->. rewrite Hn, List.length_app, elem_of_union,
        elem_of_singleton, I1. simpl. lia. }
    destruct Hcase as [(e & _ & Hreg & Hobjs) | (d & _ & Hreg & Hobjs)].
    + split; [intros a; by apply (J1 Initial)|]. rewrite Hreg.
      split; [|exact I3].
      intros n r Hr. destruct (I2 n r Hr) as [Hname Hst].
      split; [exact Hname|].
      by rewrite (status_of_app_l st _ _ _ Hobjs (Hlt n r Hr)).
    + split; [intros a; by apply (J1 Running)|]. rewrite Hreg.
      assert (Hnew : ∀ n r,
        <[name := mkRule name (List.length (notifier_objects st)) d]>
          (_name_to_rule st) !! n = Some r →
        (n = name ∧ r = mkRule name (List.length (notifier_objects st)) d)
        ∨ (n ≠ name ∧ _name_to_rule st !! n = Some r)).
      { intros n r Hr. destruct (decide (name = n)) as [->|Hne].
        - rewrite lookup_insert_eq in Hr. injection Hr as <-. by left.
        - rewrite lookup_insert_ne in Hr by assumption. right. by split. }
      split.
      * intros n r Hr. destruct (Hnew n r Hr) as [[-> ->]|[_ Hold]].
        -- split; [reflexivity|]. left. unfold status_of. cbn [rule_notifier].
           rewrite Hobjs, lookup_app_r by lia. by rewrite Nat.sub_diag.
        -- destruct (I2 n r Hold) as [Hname Hst]. split; [exact Hname|].
           by rewrite (status_of_app_l st _ _ _ Hobjs (Hlt n r Hold)).
      * intros n1 n2 r1 r2 Hr1 Hr2 Heq.
        destruct (Hnew n1 r1 Hr1) as [[-> ->]|[_ Ho1]],
                 (Hnew n2 r2 Hr2) as [[-> ->]|[_ Ho2]].
        -- reflexivity.
        -- specialize (Hlt n2 r2 Ho2). cbn [rule_notifier] in Heq. lia.
        -- specialize (Hlt n1 r1 Ho1). cbn [rule_notifier] in Heq. lia.
        -- by apply (I3 n1 n2 r1 r2).
  - destruct (unschedule_frame names st) as (Hreg & Hn & Hobjs).
    unfold status_of in *. rewrite Hreg, Hn, Hobjs.
    split; [exact I1|]. split; [exact I2 | exact I3].
  - destruct (stop_notifiers_changes order st)
      as [(Hn & Hreg & Hlen & Hobjs & _) _].
    rewrite Hreg, Hn, Hlen. split; [exact I1|]. split; [|exact I3].
    intros n r Hr. destruct (I2 n r Hr) as [Hname Hst].
    split; [exact Hname|]. unfold status_of in *.
    destruct (notifier_objects st !! rule_notifier r) as [obj|] eqn:Ha;
      [|by destruct Hst].
    destruct (Hobjs _ obj Ha) as (obj' & -> & _ & [Hs|[_ Hs]]);
      cbn [fmap option_fmap option_map] in *; rewrite Hs; [exact Hst|].
    by right.
Qed.

Section Invariants.
Variable env : Collaborators.

(** X14.  In every state the observer can be in, the notifier set is
    the set of all notifiers [schedule] has ever created: each one is
    added when it is made, also by a call that then raises, and none is
    ever taken out. *)
Theorem notifier_set_is_all_created (st : InotifyObserver) (a : nat) :
  reachable env st →
  a ∈ _notifiers st ↔ is_Some (notifier_objects st !! a).
Proof.
  intros Hreach. destruct (reachable_inv_strong env st Hreach) as [I1 _].
  rewrite I1. symmetry. apply lookup_lt_is_Some.
Qed.

(** X15.  In every state the observer can be in, the rule stored under
    a name carries that name, its notifier is in the notifier set, and
    that notifier has been started: it is running or stopped, never
    waiting to be started. *)
Theorem registered_rule_is_started (st : InotifyObserver)
    (name : string) (rule : _Rule) :
  reachable env st →
  _name_to_rule st !! name = Some rule →
  rule_name rule = name
  ∧ rule_notifier rule ∈ _notifiers st
  ∧ (status_of st (rule_notifier rule) = Some Running
     ∨ status_of st (rule_notifier rule) = Some Stopped).
Proof.
  intros Hreach Hr.
  destruct (reachable_inv_strong env st Hreach) as (_ & I2 & _).
  destruct (reachable_inv env st Hreach) as [_ Hin].
  destruct (I2 name rule Hr) as [Hname Hst].
  split; [exact Hname|]. split; [by apply (Hin name) | exact Hst].
Qed.

(** X16.  In every state the observer can be in, rules under different
    names have different notifiers: every rule has a notifier thread of
    its own. *)
Theorem rules_have_own_notifiers (st : InotifyObserver)
    (n1 n2 : string) (r1 r2 : _Rule) :
  reachable env st →
  _name_to_rule st !! n1 = Some r1 →
  _name_to_rule st !! n2 = Some r2 →
  n1 ≠ n2 →
  rule_notifier r1 ≠ rule_notifier r2.
Proof.
  intros Hreach H1 H2 Hne Heq.
  destruct (reachable_inv_strong env st Hreach) as (_ & _ & I3).
  by apply Hne, (I3 n1 n2 r1 r2).
Qed.
End Invariants.

Lemma two_rules_reachable : reachable Examples.env Cases.two_rules.
Proof. apply reachable_schedule, one_rule_reachable. Qed.

Lemma notifier_set_is_all_created_witness :
  0%nat ∈ _notifiers Examples.one_rule
  ↔ is_Some (notifier_objects Examples.one_rule !! 0%nat).
Proof.
  apply (notifier_set_is_all_created Examples.env Examples.one_rule 0).
  exact one_rule_reachable.
Defined.

Lemma registered_rule_is_started_witness :
  rule_name (mkRule "r" 0 {["/a" := 1]}) = "r"
  ∧ 0%nat ∈ _notifiers Examples.one_rule
  ∧ (status_of Examples.one_rule 0 = Some Running
     ∨ status_of Examples.one_rule 0 = Some Stopped).
Proof.
  apply (registered_rule_is_started Examples.env Examples.one_rule "r"
           (mkRule "r" 0 {["/a" := 1]}) one_rule_reachable).
  reflexivity.
Defined.

Lemma rules_have_own_notifiers_witness :
  rule_notifier (mkRule "r" 0 {["/a" := 1]})
  ≠ rule_notifier (mkRule "q" 1 {["/b" := 2]}).
Proof.
  apply (rules_have_own_notifiers Examples.env Cases.two_rules "r" "q"
           (mkRule "r" 0 {["/a" := 1]}) (mkRule "q" 1 {["/b" := 2]})
           two_rules_reachable); [reflexivity | reflexivity | discriminate].
Defined.

(* ===================================================================== *)
(** * More on the watch manager                                           *)
(* ===================================================================== *)

Lemma wd_of_path_Some (m : gmap Z string) (path : string) (wd : Z) :
  wd_of_path m path = Some wd → m !! wd = Some path.
Proof.
  unfold wd_of_path. intros H.
  destruct (List.find _ (map_to_list m)) as [[k q]|] eqn:Hf; [|discriminate].
  injection H as <-. apply List.find_some in Hf as [Hin Heq].
  apply String.eqb_eq in Heq. cbn in Heq. subst q.
  by apply elem_of_map_to_list, list_elem_of_In.
Qed.

Lemma wd_of_path_unwatched (m : gmap Z string) (path : string) :
  (∀ wd, m !! wd ≠ Some path) → wd_of_path m path = None.
Proof.
  intros H. unfold wd_of_path.
  destruct (List.find _ (map_to_list m)) as [[k q]|] eqn:Hf; [|reflexivity].
  apply List.find_some in Hf as [Hin Heq].
  apply String.eqb_eq in Heq. cbn in Heq. subst q.
  apply list_elem_of_In, elem_of_map_to_list in Hin. by destruct (H k).
Qed.

(** One watch asked for on a watch manager in order: the manager stays in
    order and keeps its watches; the descriptor returned is that of a
    watch on the path, or negative; and it is that of a watch when the
    inotify instance is open and the path can be watched. *)
Lemma add_one_watch_spec (env : Collaborators) (wm : WatchManager)
    (p : string) :
  watch_manager_inv wm →
  watch_manager_inv (add_one_watch env wm p).1
  ∧ fd_open (add_one_watch env wm p).1 = fd_open wm
  ∧ kept wm (add_one_watch env wm p).1
  ∧ ((add_one_watch env wm p).2 = -1
     ∨ wmd (add_one_watch env wm p).1 !! (add_one_watch env wm p).2
       = Some p)
  ∧ (fd_open wm = true → watchable env p = true →
     wmd (add_one_watch env wm p).1 !! (add_one_watch env wm p).2 = Some p).
Proof.
  intros Hinv. unfold add_one_watch, kept.
  destruct (fd_open wm) eqn:Hfd; cbn [andb negb fst snd];
    [|split; [exact Hinv|]; split; [first [exact Hfd | reflexivity]|];
      split; [auto|]; split; [by left | discriminate]].
  destruct (watchable env p) eqn:Hw; cbn [negb fst snd];
    [|split; [exact Hinv|]; split; [first [exact Hfd | reflexivity]|];
      split; [auto|]; split; [by left | discriminate]].
  destruct (wd_of_path (wmd wm) p) as [wd|] eqn:Hwd; cbn [fst snd].
  - apply wd_of_path_Some in Hwd.
    split; [exact Hinv|]. split; [first [exact Hfd | reflexivity]|].
    split; [auto|]. split; [by right | auto].
  - destruct Hinv as [Hpos Hinv].
    assert (Hfresh : wmd wm !! next_wd wm = None).
    { destruct (wmd wm !! next_wd wm) eqn:E; [|reflexivity].
      assert (0 < next_wd wm < next_wd wm) by (apply Hinv; eauto). lia. }
    cbn [wmd next_wd fd_open].
    split; [|split; [first [exact Hfd | reflexivity]|]; split; [|split]].
    + split; cbn [wmd next_wd]; [lia|]. intros k Hk.
      destruct (decide (next_wd wm = k)) as [<-|Hne]; [lia|].
      rewrite lookup_insert_ne in Hk by assumption.
      specialize (Hinv k Hk). lia.
    + intros k q Hk.
      rewrite lookup_insert_ne; [exact Hk|]. intros <-. congruence.
    + right. apply lookup_insert_eq.
    + intros _ _. apply lookup_insert_eq.
Qed.

Lemma add_watches_spec (env : Collaborators) (paths : list string) :
  ∀ (wm : WatchManager) (acc : gmap string Z),
    watch_manager_inv wm →
    live acc wm →
    watch_manager_inv (add_watches env wm paths acc).1
    ∧ fd_open (add_watches env wm paths acc).1 = fd_open wm
    ∧ live (add_watches env wm paths acc).2 (add_watches env wm paths acc).1
    ∧ (∀ q, q ∈ paths ∨ is_Some (acc !! q) →
            is_Some ((add_watches env wm paths acc).2 !! q))
    ∧ kept wm (add_watches env wm paths acc).1
    ∧ (fd_open wm = true →
       ∀ q, watchable env q = true →
            q ∈ paths ∨ (∃ k, acc !! q = Some k ∧ wmd wm !! k = Some q) →
            ∃ k, (add_watches env wm paths acc).2 !! q = Some k
                 ∧ wmd (add_watches env wm paths acc).1 !! k = Some q).
Proof.
  unfold live, kept.
  induction paths as [|p paths IH]; intros wm acc Hinv Hacc;
    cbn [add_watches].
  - split; [exact Hinv|]. split; [reflexivity|]. split; [exact Hacc|].
    split; [|split; [auto|]].
    + intros q [Hq|Hq]; [by apply not_elem_of_nil in Hq | exact Hq].
    + intros _ q _ [Hq|Hq]; [by apply not_elem_of_nil in Hq | exact Hq].
  - destruct (add_one_watch_spec env wm p Hinv)
      as (Hinv1 & Hfd1 & Hkept1 & Hp & Hgood).
    destruct (add_one_watch env wm p) as [wm1 wd]. cbn [fst snd] in *.
    destruct (IH wm1 (<[p := wd]> acc) Hinv1)
      as (H1 & H2 & H3 & H4 & H5 & H6).
    { intros q k Hq. destruct (decide (p = q)) as [<-|Hne].
      - rewrite lookup_insert_eq in Hq. by injection Hq as <-.
      - rewrite lookup_insert_ne in Hq by assumption.
        destruct (Hacc q k Hq) as [->|Hk]; [by left|]. right.
        by apply Hkept1. }
    split; [exact H1|]. split; [congruence|]. split; [exact H3|].
    split; [|split].
    + intros q Hq. apply H4.
      destruct (decide (p = q)) as [<-|Hne].
      * right. rewrite lookup_insert_eq. eauto.
      * destruct Hq as [Hq|Hq].
        -- apply elem_of_cons in Hq as [->|Hq]; [contradiction | by left].
        -- right. by rewrite lookup_insert_ne.
    + intros k q Hk. by apply H5, Hkept1.
    + intros Hfd q Hw Hq. apply H6; [congruence | exact Hw|].
      destruct (decide (p = q)) as [<-|Hne].
      * right. exists wd. split; [apply lookup_insert_eq | by apply Hgood].
      * destruct Hq as [Hq|(k & Hk & Hlive)].
        -- apply elem_of_cons in Hq as [->|Hq]; [contradiction | by left].
        -- right. exists k. split; [by rewrite lookup_insert_ne|].
           by apply Hkept1.
Qed.

Lemma wd_of_path_None (m : gmap Z string) (path : string) :
  wd_of_path m path = None → ∀ wd, m !! wd ≠ Some path.
Proof.
  unfold wd_of_path. intros E wd Hwd.
  destruct (List.find _ (map_to_list m)) as [kv|] eqn:Hf; [discriminate|].
  assert (Hin : In (wd, path) (map_to_list m))
    by (by apply list_elem_of_In, elem_of_map_to_list).
  pose proof (List.find_none _ _ Hf (wd, path) Hin) as Hfalse.
  cbn in Hfalse. by rewrite String.eqb_refl in Hfalse.
Qed.

(** [add_watch] on a watch manager in order: the manager stays in
    order, the returned dict has an entry for the path, every entry is a
    watch on its path or negative, and the watches there were are
    untouched; with the inotify instance open, a path that can be
    watched is watched under the descriptor the dict has for it. *)
Lemma add_watch_spec (env : Collaborators) (wm : WatchManager)
    (path : string) (rec : bool) :
  watch_manager_inv wm →
  watch_manager_inv (add_watch env wm path rec).1
  ∧ fd_open (add_watch env wm path rec).1 = fd_open wm
  ∧ live (add_watch env wm path rec).2 (add_watch env wm path rec).1
  ∧ is_Some ((add_watch env wm path rec).2 !! path)
  ∧ kept wm (add_watch env wm path rec).1
  ∧ (fd_open wm = true → watchable env path = true →
     ∃ k, (add_watch env wm path rec).2 !! path = Some k
          ∧ wmd (add_watch env wm path rec).1 !! k = Some path).
Proof.
  intros Hinv. unfold add_watch.
  destruct (add_watches_spec env
              (path :: (if rec then subdirs env path else []))
              wm ∅ Hinv) as (H1 & H2 & H3 & H4 & H5 & H6).
  { intros q k Hq. by rewrite lookup_empty in Hq. }
  split; [exact H1|]. split; [exact H2|]. split; [exact H3|].
  split; [apply H4; left; left|]. split; [exact H5|].
  intros Hfd Hw. apply H6; [exact Hfd | exact Hw|]. left. left.
Qed.

Lemma rm_watch_inv (wm : WatchManager) (wds : list Z) :
  watch_manager_inv wm → watch_manager_inv (rm_watch wm wds).
Proof.
  intros [Hpos Hinv]. split; [exact Hpos|].
  intros k Hk. cbn [next_wd rm_watch]. apply Hinv.
  rewrite rm_watch_lookup in Hk.
  destruct (decide (k ∈ wds)); [by destruct Hk | exact Hk].
Qed.

Lemma close_fd_inv (wm : WatchManager) :
  watch_manager_inv wm → watch_manager_inv (close_fd wm).
Proof.
  intros [Hpos _]. split; [exact Hpos|].
  intros k [q Hk]. cbn [close_fd wmd] in Hk. by rewrite lookup_empty in Hk.
Qed.

(* ===================================================================== *)
(** * schedule and the kernel watches                                     *)
(* ===================================================================== *)

Section ScheduleWatches.
Variable env : Collaborators.

(** The loop over the paths on a watch manager in order: whatever the
    outcome, the manager stays in order and keeps the watches it had;
    when the loop returns, every item resolves, the descriptors it
    returns are watches or negative, with an entry for the last item;
    and if the inotify instance is open, every item that can be watched
    is watched under its real path. *)
Lemma watch_paths_watches (items : list PyValue) (recursive : bool) :
  ∀ (d : option (gmap string Z)) (st : InotifyObserver),
    watch_manager_inv (_wm st) →
    (∀ ds, d = Some ds → live ds (_wm st)) →
    watch_manager_inv (_wm (watch_paths env items recursive d st).2)
    ∧ kept (_wm st) (_wm (watch_paths env items recursive d st).2)
    ∧ fd_open (_wm (watch_paths env items recursive d st).2)
      = fd_open (_wm st)
    ∧ ∀ r, (watch_paths env items recursive d st).1 = inr r →
        (∀ ds, r = Some ds →
               live ds (_wm (watch_paths env items recursive d st).2))
        ∧ (∀ s, PyStr s ∈ items →
             ∃ p,
               real_absolute_path env s = Some p
               ∧ (fd_open (_wm st) = true → watchable env p = true →
                  ∃ wd,
                    wmd (_wm (watch_paths env items recursive d st).2)
                      !! wd = Some p))
        ∧ (∀ ds s, r = Some ds → last items = Some (PyStr s) →
             ∃ p, real_absolute_path env s = Some p
                  ∧ is_Some (ds !! p)
                  ∧ (fd_open (_wm st) = true → watchable env p = true →
                     ∃ wd,
                       ds !! p = Some wd
                       ∧ wmd (_wm (watch_paths env items recursive d st).2)
                           !! wd = Some p)).
Proof.
  induction items as [|path items IH]; intros d st Hinv Hd;
    cbn [watch_paths].
  - split; [exact Hinv|]. split; [by intros k q|]. split; [reflexivity|].
    intros r [= <-]. split; [exact Hd|]. split.
    + intros s Hs. by apply not_elem_of_nil in Hs.
    + intros ds s _ Hl. discriminate.
  - destruct path as [|s|n|l|cls t it].
    all: try (split; [exact Hinv|]; split; [by intros k q|];
              split; [reflexivity|]; discriminate).
    destruct (real_absolute_path env s) as [p|] eqn:Hp;
      [|split; [exact Hinv|]; split; [by intros k q|];
        split; [reflexivity|]; discriminate].
    unfold bind, wm_add_watch.
    destruct (add_watch_spec env (_wm st) p recursive Hinv)
      as (Hinv1 & Hfd1 & Hlive1 & Hp1 & Hkept1 & Hgood1).
    destruct (add_watch env (_wm st) p recursive) as [wm1 ds1].
    cbn [fst snd] in *.
    set (st1 := {| _wm := wm1; _notifiers := _notifiers st;
                   _name_to_rule := _name_to_rule st;
                   notifier_objects := notifier_objects st |}).
    destruct (IH (Some ds1) st1 Hinv1) as (H1 & H2 & Hfd2 & H3).
    { intros ds [= <-]. exact Hlive1. }
    cbn [_wm st1] in Hfd2.
    split; [exact H1|]. split.
    { intros k q Hk. by apply H2, Hkept1. }
    split; [congruence|].
    intros r Hr. destruct (H3 r Hr) as (L1 & L2 & L3).
    split; [exact L1|]. split.
    + intros s' Hs'. apply elem_of_cons in Hs' as [[= ->]|Hs'].
      * exists p. split; [exact Hp|]. intros Hfd Hw.
        destruct (Hgood1 Hfd Hw) as (k & _ & Hk). exists k.
        by apply H2.
      * destruct (L2 s' Hs') as (p' & Hp' & Hw'). exists p'.
        split; [exact Hp'|]. intros Hfd. apply Hw'. cbn [_wm st1].
        congruence.
    + intros ds s' -> Hl. destruct items as [|item items].
      * cbn in Hl. injection Hl as <-. cbn [watch_paths] in Hr.
        injection Hr as <-. exists p. split; [exact Hp|].
        split; [exact Hp1|]. exact Hgood1.
      * destruct (L3 ds s' eq_refl Hl) as (p' & Hp' & He' & Hw').
        exists p'. split; [exact Hp'|]. split; [exact He'|].
        intros Hfd. apply Hw'. cbn [_wm st1]. congruence.
Qed.

Lemma schedule_keeps_watches_in_order (name : string)
    (event_handler : Handler) (paths : PyValue) (recursive : bool)
    (st : InotifyObserver) :
  watch_manager_inv (_wm st) →
  watch_manager_inv
    (_wm (schedule env name event_handler paths recursive st).2)
  ∧ kept (_wm st)
         (_wm (schedule env name event_handler paths recursive st).2).
Proof.
  intros Hinv.
  destruct (truthy paths) eqn:Ht.
  2: { rewrite schedule_false_paths_unchanged by assumption.
       split; [exact Hinv | by intros k q]. }
  destruct (loop_items paths) as [items|] eqn:Hitems.
  2: { rewrite schedule_not_iterable by assumption.
       split; [exact Hinv | by intros k q]. }
  rewrite (schedule_unfold env name event_handler paths recursive st
             items Ht Hitems).
  destruct (watch_paths_watches items recursive None
              (with_new_notifier (mkDispatcher event_handler recursive) st)
              Hinv) as (H1 & H2 & _); [discriminate|].
  destruct (watch_paths env items recursive None _) as [[e|[d|]] st2];
    cbn [fst snd _wm] in *; by split.
Qed.

Lemma reachable_wm_inv (st : InotifyObserver) :
  reachable env st → watch_manager_inv (_wm st).
Proof.
  induction 1 as [|st name h paths rec _ IH|st names _ IH
                  |st order _ IH _].
  - split; [reflexivity|].
    intros k [q Hk]. change ((∅ : gmap Z string) !! k = Some q) in Hk.
    by rewrite lookup_empty in Hk.
  - by apply schedule_keeps_watches_in_order.
  - destruct (unschedule_shape (_name_to_rule st) names) as (r & wds & H).
    rewrite (H st eq_refl). cbn [snd _wm]. by apply rm_watch_inv.
  - destruct (stop_notifiers_changes order st)
      as [(_ & _ & _ & _ & [-> | ->]) _];
      [exact IH | by apply close_fd_inv].
Qed.

Lemma schedule_returns_truthy (name : string) (event_handler : Handler)
    (paths : PyValue) (recursive : bool) (st : InotifyObserver) :
  (schedule env name event_handler paths recursive st).1 = inr tt →
  truthy paths = true.
Proof.
  intros Hret. destruct (truthy paths) eqn:Ht; [reflexivity|].
  rewrite schedule_false_paths_unchanged in Hret by assumption.
  discriminate.
Qed.

Lemma path_strings_items (paths : PyValue) (ss : list string) :
  path_strings paths = Some ss →
  loop_items paths = Some (PyStr <$> ss).
Proof.
  unfold path_strings.
  destruct (loop_items paths) as [items|]; [|discriminate].
  cbn [mbind option_bind]. intros H.
  by rewrite (as_strings_items items ss H).
Qed.

(** X17.  In a state the observer can be in, a call of [schedule] that
    returns has asked for a watch on the real path of every one of the
    given paths, not only of the last one: each of them resolves, and,
    the inotify instance being open, each one that can be watched is
    watched when the call returns; a path the kernel refuses is passed
    over without an error.  Every watch there was before the call is
    still there, on the same path. *)
Theorem schedule_watches_every_path (name : string)
    (event_handler : Handler) (paths : PyValue) (recursive : bool)
    (st : InotifyObserver) (ss : list string) :
  reachable env st →
  (schedule env name event_handler paths recursive st).1 = inr tt →
  path_strings paths = Some ss →
  let st' := (schedule env name event_handler paths recursive st).2 in
  (∀ s, s ∈ ss →
        ∃ p, real_absolute_path env s = Some p
             ∧ (fd_open (_wm st) = true → watchable env p = true →
                ∃ wd, wmd (_wm st') !! wd = Some p))
  ∧ kept (_wm st) (_wm st').
Proof.
  intros Hreach Hret Hss st'. subst st'.
  pose proof (reachable_wm_inv st Hreach) as Hinv.
  split; [|by apply schedule_keeps_watches_in_order].
  pose proof (schedule_returns_truthy name event_handler paths recursive st
                Hret) as Ht.
  pose proof (path_strings_items paths ss Hss) as Hp.
  rewrite (schedule_unfold env name event_handler paths recursive st
             (PyStr <$> ss) Ht Hp) in Hret |- *.
  destruct (watch_paths_watches (PyStr <$> ss) recursive None
              (with_new_notifier (mkDispatcher event_handler recursive) st)
              Hinv) as (_ & _ & _ & H3); [discriminate|].
  destruct (watch_paths env (PyStr <$> ss) recursive None _)
    as [[e|[d|]] st2]; cbn [fst snd _wm] in *; try discriminate.
  destruct (H3 (Some d) eq_refl) as (_ & L2 & _).
  intros s Hs. apply L2. by apply list_elem_of_fmap_2.
Qed.

End ScheduleWatches.

Section RoundTrip.
Variable env : Collaborators.

(** X19.  In a state the observer can be in, scheduling one path that is
    not watched yet (and has no subdirectory to go with it) and then
    unscheduling the rule by its name returns both times and leaves the
    kernel watches as they were before the two calls. *)
Theorem schedule_unschedule_round_trip (name : string)
    (event_handler : Handler) (s p : string) (recursive : bool)
    (st : InotifyObserver) :
  reachable env st →
  s ≠ "" →
  real_absolute_path env s = Some p →
  (recursive = true → subdirs env p = []) →
  unwatched (_wm st) p →
  let st1 := (schedule env name event_handler (PyStr s) recursive st).2 in
  (schedule env name event_handler (PyStr s) recursive st).1 = inr tt
  ∧ (unschedule [name] st1).1 = inr tt
  ∧ wmd (_wm (unschedule [name] st1).2) = wmd (_wm st).
Proof.
  intros Hreach Hs Hp Hsub Hun st1. subst st1.
  pose proof (reachable_wm_inv env st Hreach) as [Hpos Hinv].
  assert (Ht : truthy (PyStr s) = true).
  { cbn [truthy]. by destruct (String.eqb_spec s "") as [->|_]. }
  assert (Hfresh : wmd (_wm st) !! next_wd (_wm st) = None).
  { destruct (wmd (_wm st) !! next_wd (_wm st)) eqn:E; [|reflexivity].
    assert (0 < next_wd (_wm st) < next_wd (_wm st))
      by (apply Hinv; eauto).
    lia. }
  assert (Hrefused : wmd (_wm st) !! (-1) = None).
  { destruct (wmd (_wm st) !! (-1)) eqn:E; [|reflexivity].
    assert (0 < -1 < next_wd (_wm st)) by (apply Hinv; eauto). lia. }
  rewrite (schedule_unfold env name event_handler (PyStr s) recursive st
             [PyStr s] Ht eq_refl).
  cbn [watch_paths]. rewrite Hp. unfold bind, wm_add_watch, add_watch, ret.
  replace (if recursive then subdirs env p else []) with (@nil string)
    by (destruct recursive; [by rewrite Hsub | reflexivity]).
  cbn [add_watches with_new_notifier _wm]. unfold add_one_watch.
  destruct (negb (fd_open (_wm st) && watchable env p)).
  - cbn [fst snd _wm _name_to_rule]. split; [reflexivity|].
    unfold unschedule. cbn [for_each].
    unfold bind, unschedule_name, name_to_rule_get, bind, wm_rm_watch, ret.
    cbn [_name_to_rule]. rewrite lookup_insert_eq.
    cbn [fst snd _wm rule_descriptors rm_watch wmd]. split; [reflexivity|].
    unfold values. rewrite insert_empty, map_to_list_singleton.
    cbn [fmap list_fmap snd foldr]. by apply delete_id.
  - rewrite (wd_of_path_unwatched _ _ Hun).
    cbn [fst snd _wm _name_to_rule]. split; [reflexivity|].
    unfold unschedule. cbn [for_each].
    unfold bind, unschedule_name, name_to_rule_get, bind, wm_rm_watch, ret.
    cbn [_name_to_rule]. rewrite lookup_insert_eq.
    cbn [fst snd _wm rule_descriptors rm_watch wmd]. split; [reflexivity|].
    unfold values. rewrite insert_empty, map_to_list_singleton.
    cbn [fmap list_fmap snd foldr].
    rewrite delete_insert_eq. by apply delete_id.
Qed.
End RoundTrip.

Lemma schedule_watches_every_path_witness :
  ∃ p wd,
    real_absolute_path Examples.env "/b" = Some p
    ∧ wmd (_wm (schedule Examples.env "q" "h"
                  (PyList [PyStr "/b"; PyStr "/c"]) false
                  Examples.one_rule).2) !! wd = Some p.
Proof.
  destruct (schedule_watches_every_path Examples.env "q" "h"
              (PyList [PyStr "/b"; PyStr "/c"]) false Examples.one_rule
              ["/b"; "/c"] one_rule_reachable eq_refl eq_refl) as [H _].
  destruct (H "/b") as (p & Hp & Hw); [left|].
  destruct Hw as [wd Hwd]; [reflexivity | reflexivity |].
  by exists p, wd.
Defined.


(** A watch the kernel refuses is passed over in silence: [schedule]
    returns, and the rule records a negative descriptor for a path that
    is not watched.  So it is with every path once a stop has closed the
    inotify instance. *)
Example schedule_refused_watch :
  let res := schedule Cases.refusing_env "r" "h"
                      (PyList [PyStr "/gone"; PyStr "/a"]) false
                      new_InotifyObserver in
  let late := schedule Examples.env "q" "h" (PyStr "/b") false
                       (on_stopping Examples.one_rule).2 in
  res.1 = inr tt
  ∧ map_to_list (wmd (_wm res.2)) = [(1, "/a")]
  ∧ (schedule Cases.refusing_env "r" "h" (PyStr "/gone") false
              new_InotifyObserver).1 = inr tt
  ∧ (map_to_list ∘ rule_descriptors
       <$> _name_to_rule
             (schedule Cases.refusing_env "r" "h" (PyStr "/gone") false
                       new_InotifyObserver).2 !! "r")
    = Some [("/gone", -1)]
  ∧ late.1 = inr tt
  ∧ (map_to_list ∘ rule_descriptors <$> _name_to_rule late.2 !! "q")
    = Some [("/b", -1)]
  ∧ map_to_list (wmd (_wm late.2)) = [].
Proof. vm_compute. repeat split. Qed.

Lemma schedule_unschedule_round_trip_witness :
  wmd (_wm (unschedule ["q"]
              (schedule Examples.env "q" "h" (PyStr "/b") true
                        Examples.one_rule).2).2)
    = wmd (_wm Examples.one_rule).
Proof.
  assert (Hs : "/b" ≠ "") by discriminate.
  assert (Hsub : true = true → subdirs Examples.env "/b" = [])
    by reflexivity.
  assert (Hun : unwatched (_wm Examples.one_rule) "/b")
    by exact (wd_of_path_None (wmd (_wm Examples.one_rule)) "/b" eq_refl).
  exact (proj2 (proj2 (schedule_unschedule_round_trip Examples.env "q" "h"
                         "/b" "/b" true Examples.one_rule one_rule_reachable
                         Hs eq_refl Hsub Hun))).
Defined.

(* ===================================================================== *)
(** * The observer without rules                                          *)
(* ===================================================================== *)

(** X20.  On an observer whose registry is empty, as [__init__] leaves
    it, [unschedule] without names returns and changes nothing, and
    [unschedule] with names raises KeyError for the first of them and
    changes nothing; when the notifier set is empty, [on_stopping]
    returns and changes nothing. *)
Theorem empty_observer_calls (st : InotifyObserver) :
  _name_to_rule st = ∅ →
  unschedule [] st = (inr tt, st)
  ∧ (∀ n names, unschedule (n :: names) st = (inl (KeyError n), st))
  ∧ (_notifiers st = ∅ → on_stopping st = (inr tt, st)).
Proof.
  intros Hreg. split; [|split].
  - unfold unschedule, bind, get_state. by rewrite Hreg, map_to_list_empty.
  - intros n names. unfold unschedule. cbn [for_each].
    unfold bind, unschedule_name, name_to_rule_get, bind.
    by rewrite Hreg, lookup_empty.
  - intros Hn. unfold on_stopping, bind, get_state.
    by rewrite Hn, elements_empty.
Qed.

Lemma empty_observer_calls_witness :
  unschedule [] new_InotifyObserver = (inr tt, new_InotifyObserver)
  ∧ unschedule ["r"] new_InotifyObserver
    = (inl (KeyError "r"), new_InotifyObserver)
  ∧ on_stopping new_InotifyObserver = (inr tt, new_InotifyObserver).
Proof.
  destruct (empty_observer_calls new_InotifyObserver eq_refl)
    as (H1 & H2 & H3).
  split; [exact H1|]. split; [exact (H2 "r" []) | exact (H3 eq_refl)].
Defined.
